(** * flood.py: rolling 24h rainfall, river anchors and skill rules

    A shallow embedding of [src/flood.py] and the properties of its
    classification loop.

    Numbers.  Python's [float] is modelled by exact rationals in canonical
    form ([Qc], whose Leibniz equality is equality of values, as [==] on
    finite floats).  The literal [inf] of the source appears in two places
    only, the bounds of a [FloatRange] and the default of
    [river_flood.get(river, inf)]; those positions carry an [xfloat], a
    rational extended with the two infinities.  Rounding and NaN are outside
    the model.  Timestamps ([int]) are [Z].

    Exceptions.  [process_group], [run] and [main] carry the exceptions of
    the loop proper (lines 161 and 169); [process_group_utc], [run_utc] and
    [main_utc] add the exception that [utcfromtimestamp] raises at line 186
    for a time the platform cannot represent. *)

From Stdlib Require Import QArith Qcanon.
From stdpp Require Import base decidable option numbers list sorting strings gmap.

Local Open Scope Z_scope.

(** ** Floats *)

Definition Qc_ltb (x y : Qc) : bool := bool_decide (x < y)%Qc.
Definition Qc_leb (x y : Qc) : bool := bool_decide (x ≤ y)%Qc.

Inductive xfloat : Type :=
  | NegInf : xfloat
  | Fin : Qc → xfloat
  | PosInf : xfloat.

(** [inf] in the source. *)
Definition inf : xfloat := PosInf.

(** [a < b] on floats. *)
Definition xltb (a b : xfloat) : bool :=
  match a, b with
  | _, NegInf => false
  | NegInf, _ => true
  | PosInf, _ => false
  | Fin _, PosInf => true
  | Fin x, Fin y => Qc_ltb x y
  end.

(** [a <= b] on floats. *)
Definition xleb (a b : xfloat) : bool :=
  match a, b with
  | NegInf, _ => true
  | _, NegInf => false
  | _, PosInf => true
  | PosInf, Fin _ => false
  | Fin x, Fin y => Qc_leb x y
  end.

(** Python's [min(a, b)]: the first argument unless the second is
    strictly smaller. *)
Definition fmin (a b : xfloat) : xfloat := if xltb b a then b else a.

(** Python's [sum(l)]: a left fold of [+] from [0]. *)
Definition sum (l : list Qc) : Qc := fold_left Qcplus l (Q2Qc 0).

(** ** Data model *)

(** [class Record(NamedTuple)]; [Record] is a keyword here. *)
Record WeatherRecord : Type := mkRecord {
  city_name : string;
  dt : Z;
  lat : Qc;
  lon : Qc;
  rain_1h : option Qc;
  weather_description : string
}.

Record Location : Type := mkLocation {
  loc_city_name : string;
  loc_lat : Qc;
  loc_lon : Qc
}.

Record Data : Type := mkData {
  loc : Location;
  dt_from : Z;
  dt_to : Z;
  rain_24h : list Qc
}.

Inductive SkillLevel : Type :=
  | NONE
  | BASIC_SKILLS
  | INTERMEDIATE_SKILLS
  | ADVANCED_SKILLS.

(** The integer value of the [int] enum ([NONE = 0], then [enum.auto()]). *)
Definition skill_value (s : SkillLevel) : Z :=
  match s with
  | NONE => 0
  | BASIC_SKILLS => 1
  | INTERMEDIATE_SKILLS => 2
  | ADVANCED_SKILLS => 3
  end.

(** [max(a, b)] on skill levels: the first argument unless the second is
    strictly greater. *)
Definition skill_max (a b : SkillLevel) : SkillLevel :=
  if skill_value a <? skill_value b then b else a.

Record FloatRange : Type := mkFloatRange {
  start : xfloat;
  stop : xfloat;
  inc : bool
}.

(** [FloatRange.check]. *)
Definition check (self : FloatRange) (value : Qc) : bool :=
  if inc self
  then xleb (start self) (Fin value) && xleb (Fin value) (stop self)
  else xltb (start self) (Fin value) && xltb (Fin value) (stop self).

Record RainToSkill : Type := mkRainToSkill {
  rain : FloatRange;
  weather : string;
  skill : SkillLevel
}.

Global Instance xfloat_eq_dec : EqDecision xfloat.
Proof. solve_decision. Defined.
Global Instance Location_eq_dec : EqDecision Location.
Proof. solve_decision. Defined.
Global Instance SkillLevel_eq_dec : EqDecision SkillLevel.
Proof. solve_decision. Defined.
Global Instance WeatherRecord_eq_dec : EqDecision WeatherRecord.
Proof. solve_decision. Defined.

Global Instance Location_countable : Countable Location.
Proof.
  apply (inj_countable'
           (λ l, (loc_city_name l, loc_lat l, loc_lon l))
           (λ t, mkLocation t.1.1 t.1.2 t.2)).
  by intros [].
Defined.


(** ** Containers *)

(** A Python [dict]: keys are unique and iteration follows insertion order;
    assigning to an existing key keeps its position. *)
Section dict.
Context {K V : Type} `{EqDecision K}.

Fixpoint dict_get (k : K) (d : list (K * V)) : option V :=
  match d with
  | [] => None
  | (k', v) :: d' => if decide (k' = k) then Some v else dict_get k d'
  end.

Fixpoint dict_set (k : K) (v : V) (d : list (K * V)) : list (K * V) :=
  match d with
  | [] => [(k, v)]
  | (k', v') :: d' =>
      if decide (k' = k) then (k', v) :: d' else (k', v') :: dict_set k v d'
  end.
End dict.

(** ** Sorting and grouping *)

(** [a < b] for the sort key [x._replace(rain_1h = 0)]: tuples compare at
    the first position where they differ; the rain position is the constant
    [0] on both sides and never decides. *)
Definition key_ltb (a b : WeatherRecord) : bool :=
  if decide (city_name a ≠ city_name b) then String.ltb (city_name a) (city_name b)
  else if decide (dt a ≠ dt b) then dt a <? dt b
  else if decide (lat a ≠ lat b) then Qc_ltb (lat a) (lat b)
  else if decide (lon a ≠ lon b) then Qc_ltb (lon a) (lon b)
  else String.ltb (weather_description a) (weather_description b).

(** [list.sort] is stable; a stable insertion sort stands for it: [x] goes
    before the first element that is strictly greater. *)
Fixpoint insert_sorted (x : WeatherRecord) (l : list WeatherRecord)
  : list WeatherRecord :=
  match l with
  | [] => [x]
  | y :: l' => if key_ltb x y then x :: l else y :: insert_sorted x l'
  end.

Definition sort (records : list WeatherRecord) : list WeatherRecord :=
  fold_left (λ acc x, insert_sorted x acc) records [].

(** The [groupby] key [x[:-1]]: every field but the weather description. *)
Definition group_key (x : WeatherRecord)
  : string * Z * Qc * Qc * option Qc :=
  (city_name x, dt x, lat x, lon x, rain_1h x).

(** [itertools.groupby]: maximal runs of consecutive elements with equal
    keys, each with its key. *)
Fixpoint groupby {A K : Type} `{EqDecision K} (key : A → K) (l : list A)
  : list (K * list A) :=
  match l with
  | [] => []
  | x :: l' =>
      match groupby key l' with
      | (k, g) :: gs =>
          if decide (key x = k) then (k, x :: g) :: gs
          else (key x, [x]) :: (k, g) :: gs
      | [] => [(key x, [x])]
      end
  end.

(** ** Errors *)

Inductive exn : Type :=
  (** [Exception(f"Expected loc=..., dt=..., but found ...")] *)
  | ContinuityError (expected_loc : Location) (expected_dt : Z)
                    (found : WeatherRecord)
  (** [recs[0]] on an empty tuple *)
  | IndexError.

Inductive result (A : Type) : Type :=
  | Ok (a : A)
  | Raise (e : exn).
Arguments Ok {A} a.
Arguments Raise {A} e.

Definition bind {A B : Type} (r : result A) (f : A → result B) : result B :=
  match r with
  | Ok a => f a
  | Raise e => Raise e
  end.

Notation "x ←! r ; k" := (bind r (λ x, k))
  (at level 20, r at level 100, k at level 200, only parsing).

(** ** The classification loop *)

Definition Location_of (rec : WeatherRecord) : Location :=
  mkLocation (city_name rec) (lat rec) (lon rec).

Definition Point : Type := Qc * Qc.

(** One printed line [f"{loc} needs {skill} at {...} UTC"]. *)
Record SkillReport : Type := mkSkillReport {
  report_loc : Location;
  report_skill : SkillLevel;
  report_dt : Z
}.

(** The variables of [main]. *)
Record state : Type := mkState {
  data : list (Location * Data);
  rain_flood : gset Location;
  river_flood : gmap string xfloat;
  printed : list SkillReport
}.

Definition init : state := mkState [] ∅ ∅ [].

(** Lines 163-172: fetch or open the window of [rec], check continuity,
    append the hourly rain and evict the oldest entry above 24.  The source
    appends to the list object shared by the old and the new [Data]; the old
    one is dropped by [data[loc] = d], so the list is a plain field here. *)
Definition update_window (data : list (Location * Data)) (rec : WeatherRecord)
  : result Data :=
  let lc := Location_of rec in
  d ←! match dict_get lc data with
       | None => Ok (mkData lc (dt rec - 3600) (dt rec) [])
       | Some d =>
           if bool_decide (lc ≠ loc d) || bool_decide (dt rec = dt_to d + 3600)
           then Ok (mkData (loc d) (dt_from d) (dt rec) (rain_24h d))
           else Raise (ContinuityError lc (dt_to d + 3600) rec)
       end;
  let l := rain_24h d ++ [default (Q2Qc 0) (rain_1h rec)] in
  let l := if bool_decide (24 < length l)%nat then tail l else l in
  Ok (mkData (loc d) (dt_from d) (dt_to d) l).

(** What [main] takes from outside: the geometry of [shapely] and [pyproj],
    the tables read from files at import time, and the command line. *)
Class Env : Type := mkEnv {
  LineString : Type;
  (** [line.distance(p)] and [line.project(p)] *)
  distance : LineString → Point → Qc;
  project : LineString → Point → Qc;
  (** [PROJECT.transform] *)
  PROJECT : Qc → Qc → Point;
  (** the items of the dict [RIVERS], in insertion order *)
  RIVERS : list (string * LineString);
  RAIN_TO_SKILLS : list RainToSkill;
  (** [args.rain_threshold], [args.river_margin] *)
  rain_threshold : Qc;
  river_margin : Qc
}.

Section main.
Context {env : Env}.

(** [Point(PROJECT.transform(loc.lat, loc.lon))] *)
Definition point_of (lc : Location) : Point :=
  PROJECT (loc_lat lc) (loc_lon lc).

(** Lines 178-179, the body of the loop over the rivers. *)
Definition anchor_step (p : Point) (river_flood : gmap string xfloat)
           (item : string * LineString) : gmap string xfloat :=
  let '(river, line) := item in
  if Qc_ltb (distance line p) river_margin
  then <[river := fmin (default inf (river_flood !! river))
                       (Fin (project line p))]> river_flood
  else river_flood.

(** Lines 177-179. *)
Definition update_anchors (p : Point) (river_flood : gmap string xfloat)
  : gmap string xfloat :=
  fold_left (anchor_step p) RIVERS river_flood.

Definition rule_applies (r2s : RainToSkill) (rec : WeatherRecord)
           (rain_sum : Qc) : bool :=
  bool_decide (weather r2s = weather_description rec)
  && check (rain r2s) rain_sum.

(** Lines 183-184, the body of the loop over the rules. *)
Definition rule_step (rec : WeatherRecord) (rain_sum : Qc)
           (level : SkillLevel) (r2s : RainToSkill) : SkillLevel :=
  if rule_applies r2s rec rain_sum then skill_max level (skill r2s) else level.

(** Lines 180-184. *)
Definition group_skill (recs : list WeatherRecord) (rain_sum : Qc)
  : SkillLevel :=
  fold_left
    (λ level rec, fold_left (rule_step rec rain_sum) RAIN_TO_SKILLS level)
    recs NONE.

(** The body of the loop over the groups, lines 160-187, with the line that
    186 prints recorded in [printed].  The exception that
    [utcfromtimestamp] raises at line 186 for a time it cannot represent is
    left to [process_group_utc] below, which adds it to this body. *)
Definition process_group (st : state) (recs : list WeatherRecord)
  : result state :=
  match recs with
  | [] => Raise IndexError
  | rec :: _ =>
      let lc := Location_of rec in
      d ←! update_window (data st) rec;
      let rain := sum (rain_24h d) in
      let flooded := Qc_leb rain_threshold rain in
      let rain_flood' :=
        if flooded then {[lc]} ∪ rain_flood st else rain_flood st in
      let river_flood' :=
        if flooded then update_anchors (point_of lc) (river_flood st)
        else river_flood st in
      let level := group_skill recs rain in
      let printed' :=
        if bool_decide (level ≠ NONE)
        then printed st ++ [mkSkillReport lc level (dt (List.last recs rec))]
        else printed st in
      Ok (mkState (dict_set lc d (data st)) rain_flood' river_flood' printed')
  end.

(** The loop over the groups. *)
Fixpoint run (st : state) (groups : list (list WeatherRecord))
  : result state :=
  match groups with
  | [] => Ok st
  | recs :: groups' => st' ←! process_group st recs; run st' groups'
  end.

(** Lines 154-159: the groups the loop sees. *)
Definition groups_of (records : list WeatherRecord)
  : list (list WeatherRecord) :=
  (groupby group_key (sort records)).*2.

Definition main_loop (records : list WeatherRecord) : result state :=
  run init (groups_of records).

(** Line 197, the test of one river for one location. *)
Definition downstream (river_flood : gmap string xfloat) (p : Point)
           (item : string * LineString) : bool :=
  let '(river, line) := item in
  Qc_ltb (distance line p) river_margin
  && xleb (default inf (river_flood !! river)) (Fin (project line p)).

(** Lines 192-198: the lines printed under FLOOD BY RIVER. *)
Definition river_flood_report (st : state) : list (Location * string) :=
  '(lc, d) ← data st;
  if bool_decide (lc ∈ rain_flood st) then []
  else
    let p := point_of lc in
    item ← RIVERS;
    if downstream (river_flood st) p item then [(lc, item.1)] else [].

(** What [main] prints: the skill lines, the rain-flooded set, the
    river-flood lines. *)
Definition main (records : list WeatherRecord)
  : result (list SkillReport * gset Location * list (Location * string)) :=
  st ←! main_loop records;
  Ok (printed st, rain_flood st, river_flood_report st).
End main.

(** ** Specification-side notions *)

(** The order of the extended rationals. *)
Inductive xle : xfloat → xfloat → Prop :=
  | xle_neg b : xle NegInf b
  | xle_fin x y : (x ≤ y)%Qc → xle (Fin x) (Fin y)
  | xle_pos a : xle a PosInf.

Inductive xlt : xfloat → xfloat → Prop :=
  | xlt_neg_fin y : xlt NegInf (Fin y)
  | xlt_neg_pos : xlt NegInf PosInf
  | xlt_fin x y : (x < y)%Qc → xlt (Fin x) (Fin y)
  | xlt_fin_pos x : xlt (Fin x) PosInf.

(** A boolean strict order that is total up to equality. *)
Class StrictTotal {A : Type} (ltb : A → A → bool) : Prop := {
  ltb_irrefl x : ltb x x = false;
  ltb_trans x y z : ltb x y = true → ltb y z = true → ltb x z = true;
  ltb_total x y : ltb x y = false → ltb y x = false → x = y
}.

(** Python compares tuples at the first position where they differ. *)
Definition lex {A B : Type} `{EqDecision A}
           (ltA : A → A → bool) (ltB : B → B → bool) (x y : A * B) : bool :=
  if decide (x.1 ≠ y.1) then ltA x.1 y.1 else ltB x.2 y.2.

(** Where and when an observation was made. *)
Definition base_key (x : WeatherRecord) : string * Z * Qc * Qc :=
  (city_name x, dt x, lat x, lon x).

(** What the sort compares: the record without its rain. *)
Definition sort_key (x : WeatherRecord) : string * Z * Qc * Qc * string :=
  (base_key x, weather_description x).

Definition base_ltb : string * Z * Qc * Qc → string * Z * Qc * Qc → bool :=
  lex (lex (lex String.ltb Z.ltb) Qc_ltb) Qc_ltb.

(** [a] does not come after [b] in the sort order. *)
Definition key_le (a b : WeatherRecord) : Prop := key_ltb b a = false.

(** What [groupby] does with one more element in front. *)
Definition push_group {A K : Type} `{EqDecision K} (key : A → K) (x : A)
           (gs : list (K * list A)) : list (K * list A) :=
  match gs with
  | (k, g) :: gs' =>
      if decide (key x = k) then (k, x :: g) :: gs'
      else (key x, [x]) :: (k, g) :: gs'
  | [] => [(key x, [x])]
  end.



(** The last [n] elements of a list. *)
Definition lastn {A : Type} (n : nat) (l : list A) : list A :=
  drop (length l - n) l.

(** The hourly rain of an observation, [float(rec.rain_1h or 0)]. *)
Definition rain_of (rec : WeatherRecord) : Qc := default (Q2Qc 0) (rain_1h rec).

(** The first records of the groups that belong to location [lc], in the
    order the loop meets them: the observations of [lc]. *)
Definition obs_of (lc : Location) (groups : list (list WeatherRecord))
  : list WeatherRecord :=
  filter (λ r, Location_of r = lc) (omap head groups).

(** Consecutive observations are one hour apart. *)
Definition hourly (h : list WeatherRecord) : Prop :=
  ∀ i r r', h !! i = Some r → h !! S i = Some r' → dt r' = dt r + 3600.

(** A stream of groups in which every location is observed hour by hour. *)
Definition contiguous (groups : list (list WeatherRecord)) : Prop :=
  Forall (λ g, g ≠ []) groups ∧ ∀ lc, hourly (obs_of lc groups).

(** The records of one place and time agree on the rain. *)
Definition consistent (records : list WeatherRecord) : Prop :=
  ∀ x y, x ∈ records → y ∈ records →
         base_key x = base_key y → rain_1h x = rain_1h y.

(** The timestamps of a location are whole hours apart and leave no hour
    out. *)
Definition gapless (records : list WeatherRecord) : Prop :=
  ∀ x y, x ∈ records → y ∈ records →
         Location_of x = Location_of y → dt x < dt y →
         dt x + 3600 ≤ dt y ∧
         ∃ z, z ∈ records ∧ Location_of z = Location_of x ∧
              dt z = dt x + 3600.

(** An input in which every location is observed hour by hour. *)
Definition hourly_input (records : list WeatherRecord) : Prop :=
  consistent records ∧ gapless records.

(** The rolling sum over a history of hourly rains: the sum of its last 24
    values. *)
Definition rolling (rains : list Qc) : Qc := sum (lastn 24 rains).

(** Some observation of the history saw a rolling sum at or above the
    threshold. *)
Definition reached {env : Env} (h : list WeatherRecord) : Prop :=
  ∃ k, (0 < k ≤ length h)%nat ∧
       (rain_threshold ≤ rolling (rain_of <$> take k h))%Qc.

(** The window [d] of location [lc] after the observations [h]. *)
Definition window_inv (h : list WeatherRecord) (lc : Location) (d : Data)
  : Prop :=
  loc d = lc ∧ h ≠ [] ∧
  rain_24h d = lastn 24 (rain_of <$> h) ∧
  dt_from d = dt_to d - 3600 * Z.of_nat (length h) ∧
  ∀ (i : nat) r, h !! i = Some r →
                 dt r = dt_to d - 3600 * (Z.of_nat (length h) - 1 - Z.of_nat i).

(** The windows of a state after the loop has processed [groups]. *)
Definition data_inv (groups : list (list WeatherRecord)) (st : state) : Prop :=
  ∀ lc, match dict_get lc (data st) with
        | None => obs_of lc groups = []
        | Some d => window_inv (obs_of lc groups) lc d
        end.

(** The rain-flooded set of a state after the loop has processed [groups]. *)
Definition rain_inv {env : Env} (groups : list (list WeatherRecord)) (st : state)
  : Prop :=
  ∀ lc, lc ∈ rain_flood st ↔ reached (obs_of lc groups).

(** The two nested loops of lines 181-184 from any starting level. *)
Definition skill_loop {env : Env} (rain_sum : Qc) (recs : list WeatherRecord)
           (level : SkillLevel) : SkillLevel :=
  fold_left
    (λ level rec, fold_left (rule_step rec rain_sum) RAIN_TO_SKILLS level)
    recs level.

(** The anchor of a river, [river_flood.get(river, inf)]. *)
Definition anchor (st : state) (river : string) : xfloat :=
  default inf (river_flood st !! river).

(** The river [line] runs within the margin of location [lc]. *)
Definition near {env : Env} (line : LineString) (lc : Location) : Prop :=
  (distance line (point_of lc) < river_margin)%Qc.

(** How far along the river [line] location [lc] lies. *)
Definition position {env : Env} (line : LineString) (lc : Location) : Qc :=
  project line (point_of lc).

(** The anchors of a state: at most the position of every rain-flooded
    location near the river, and the position of one of them when there is
    an anchor. *)
Definition anchor_inv {env : Env} (st : state) : Prop :=
  ∀ river line, (river, line) ∈ RIVERS →
    (∀ lc, lc ∈ rain_flood st → near line lc →
           xle (anchor st river) (Fin (position line lc))) ∧
    match river_flood st !! river with
    | None => ∀ lc, lc ∈ rain_flood st → ¬ near line lc
    | Some a => ∃ lc, lc ∈ rain_flood st ∧ near line lc ∧
                      a = Fin (position line lc)
    end.

(** The window that the observations [h] of location [lc] leave behind. *)
Definition window_of (lc : Location) (h : list WeatherRecord) : option Data :=
  match h with
  | [] => None
  | r0 :: _ =>
      Some (mkData lc (dt r0 - 3600) (dt (List.last h r0))
                   (lastn 24 (rain_of <$> h)))
  end.

(** The line that the group [g] prints after the groups [before], if any:
    the level of the rules on the rolling sum of its location. *)
Definition report_of {env : Env} (before : list (list WeatherRecord))
           (g : list WeatherRecord) : option SkillReport :=
  match g with
  | [] => None
  | rec :: _ =>
      let lc := Location_of rec in
      let level :=
        group_skill g (rolling (rain_of <$> obs_of lc (before ++ [g]))) in
      if decide (level = NONE) then None
      else Some (mkSkillReport lc level (dt (List.last g rec)))
  end.

(** The lines that a stream of groups prints. *)
Definition reports {env : Env} (groups : list (list WeatherRecord))
  : list SkillReport :=
  omap id (imap (λ i g, report_of (take i groups) g) groups).

(** The environment [e] with another [args.rain_threshold],
    [args.river_margin] or table [RAIN_TO_SKILLS]. *)
Definition with_threshold (e : Env) (t : Qc) : Env :=
  mkEnv (@LineString e) (@distance e) (@project e) (@PROJECT e) (@RIVERS e)
        (@RAIN_TO_SKILLS e) t (@river_margin e).

Definition with_margin (e : Env) (m : Qc) : Env :=
  mkEnv (@LineString e) (@distance e) (@project e) (@PROJECT e) (@RIVERS e)
        (@RAIN_TO_SKILLS e) (@rain_threshold e) m.

Definition with_rules (e : Env) (rules : list RainToSkill) : Env :=
  mkEnv (@LineString e) (@distance e) (@project e) (@PROJECT e) (@RIVERS e)
        rules (@rain_threshold e) (@river_margin e).

(** The record with its hourly rain [float(rec.rain_1h or 0)] written in. *)
Definition fill_rain (r : WeatherRecord) : WeatherRecord :=
  mkRecord (city_name r) (dt r) (lat r) (lon r) (Some (rain_of r))
           (weather_description r).

(** What [fill_rain] does to the [groupby] key of a record. *)
Definition fill_key (k : string * Z * Qc * Qc * option Qc)
  : string * Z * Qc * Qc * option Qc :=
  (k.1, Some (default (Q2Qc 0) k.2)).

(** The exception of line 169 with the record found filled in. *)
Definition fill_exn (e : exn) : exn :=
  match e with
  | ContinuityError lc t rec => ContinuityError lc t (fill_rain rec)
  | IndexError => IndexError
  end.

(** ** The loop with the exception of line 186 *)

(** [datetime.datetime.utcfromtimestamp(t)] raises (ValueError,
    OverflowError or OSError) for a time outside the years 1 to 9999 or
    outside the range of the platform's [gmtime]; [utc_valid t] tells
    whether it returns for [t]. *)
Class Platform : Type := mkPlatform {
  utc_valid : Z → bool
}.

(** What stops [main]: an exception of the loop proper (lines 161 and
    169), or the exception of [utcfromtimestamp] at line 186 with the time
    it was given. *)
Inductive failure : Type :=
  | LoopFailure (e : exn)
  | TimeFailure (t : Z).

Inductive outcome (A : Type) : Type :=
  | Finished (a : A)
  | Failed (f : failure).
Arguments Finished {A} a.
Arguments Failed {A} f.

Section main_utc.
Context {env : Env} {pf : Platform}.

(** The body of the loop over the groups, lines 160-187: the line of 186 is
    printed after the flood sets are updated and before the window is
    stored; its time is that of the last record of the group, the value of
    [rec] after the loop of line 181. *)
Definition process_group_utc (st : state) (recs : list WeatherRecord)
  : outcome state :=
  match recs with
  | [] => Failed (LoopFailure IndexError)
  | rec :: _ =>
      let lc := Location_of rec in
      match update_window (data st) rec with
      | Raise e => Failed (LoopFailure e)
      | Ok d =>
          let rain := sum (rain_24h d) in
          let flooded := Qc_leb rain_threshold rain in
          let rain_flood' :=
            if flooded then {[lc]} ∪ rain_flood st else rain_flood st in
          let river_flood' :=
            if flooded then update_anchors (point_of lc) (river_flood st)
            else river_flood st in
          let level := group_skill recs rain in
          let t := dt (List.last recs rec) in
          if bool_decide (level ≠ NONE)
          then
            if utc_valid t
            then Finished (mkState (dict_set lc d (data st)) rain_flood'
                                   river_flood'
                                   (printed st ++ [mkSkillReport lc level t]))
            else Failed (TimeFailure t)
          else Finished (mkState (dict_set lc d (data st)) rain_flood'
                                 river_flood' (printed st))
      end
  end.

(** The loop over the groups. *)
Fixpoint run_utc (st : state) (groups : list (list WeatherRecord))
  : outcome state :=
  match groups with
  | [] => Finished st
  | recs :: groups' =>
      match process_group_utc st recs with
      | Finished st' => run_utc st' groups'
      | Failed f => Failed f
      end
  end.

Definition main_loop_utc (records : list WeatherRecord) : outcome state :=
  run_utc init (groups_of records).

(** What [main] prints when it runs to the end. *)
Definition main_utc (records : list WeatherRecord)
  : outcome (list SkillReport * gset Location * list (Location * string)) :=
  match main_loop_utc records with
  | Finished st => Finished (printed st, rain_flood st, river_flood_report st)
  | Failed f => Failed f
  end.
End main_utc.

(** Every line of the list could be printed: [utcfromtimestamp] returns
    for its time. *)
Definition valid_reports {pf : Platform} (l : list SkillReport) : Prop :=
  Forall (λ r, utc_valid (report_dt r) = true) l.

(** ** Sample inputs *)

(** A float written as an integer literal. *)
Definition q (n : Z) : Qc := Q2Qc (inject_Z n).

(** A straight river along the x axis: the distance of a point is its
    ordinate (taken non-negative below), its position along the river is its
    abscissa. *)
Definition axis_env (rules : list RainToSkill) (threshold margin : Qc) : Env :=
  mkEnv unit (λ _ p, p.2) (λ _ p, p.1) (λ la lo, (la, lo))
        [("Saar", tt)] rules threshold margin.

(** The rules of the skill example: [0-10] and [10-inf], both inclusive as
    [read_rain_to_skills] reads ranges written with a dash. *)
Definition sample_rules : list RainToSkill :=
  [mkRainToSkill (mkFloatRange (Fin (q 0)) (Fin (q 10)) true) "Rain" BASIC_SKILLS;
   mkRainToSkill (mkFloatRange (Fin (q 10)) PosInf true) "Rain" ADVANCED_SKILLS].

Definition sample_env : Env := axis_env sample_rules (q 50) (q 1000).

(** Two observations of one group, both with weather ["Rain"] and 15 units
    of rain in the hour. *)
Definition rain_pair : list WeatherRecord :=
  [mkRecord "A" 0 (q 1000) (q 500) (Some (q 15)) "Rain";
   mkRecord "A" 0 (q 1000) (q 500) (Some (q 15)) "Rain"].

(** An observation of town ["A"] at abscissa 1000, 500 off the river. *)
Definition obs_A (t : Z) (r : option Qc) (w : string) : WeatherRecord :=
  mkRecord "A" t (q 1000) (q 500) r w.

(** Town ["B"] lies downstream of ["A"] at abscissa 3000, town ["C"]
    upstream at abscissa 500, town ["D"] at abscissa 2000 exactly
    [river_margin] away from the river. *)
Definition obs_B (t : Z) (r : option Qc) (w : string) : WeatherRecord :=
  mkRecord "B" t (q 3000) (q 500) r w.
Definition obs_C (t : Z) (r : option Qc) (w : string) : WeatherRecord :=
  mkRecord "C" t (q 500) (q 500) r w.
Definition obs_D (t : Z) (r : option Qc) (w : string) : WeatherRecord :=
  mkRecord "D" t (q 2000) (q 1000) r w.

(** One hour of rain: 60 units on ["A"], 20 on the three others. *)
Definition flood_story : list WeatherRecord :=
  [obs_C 0 (Some (q 20)) "Rain"; obs_B 0 (Some (q 20)) "Rain";
   obs_D 0 (Some (q 20)) "Rain"; obs_A 0 (Some (q 60)) "Rain"].

(** The state of [main] after its loop, [init] if the loop raised. *)
Definition final_state {env : Env} (records : list WeatherRecord) : state :=
  match main_loop records with
  | Ok st => st
  | Raise _ => init
  end.

(** [n] hours of rain at ["A"], one group an hour from time 0, with [i]
    units of rain in hour [i]. *)
Definition rainy_hours (n : nat) : list (list WeatherRecord) :=
  (λ i : nat, [obs_A (3600 * Z.of_nat i) (Some (q (Z.of_nat i))) "Rain"])
    <$> seq 0 n.

(** [n] dry hours observed at ["A"], one record an hour from time 0. *)
Definition dry_hours (n : nat) : list WeatherRecord :=
  (λ i : nat, obs_A (3600 * Z.of_nat i) None "Fog") <$> seq 0 n.

(** A platform whose [utcfromtimestamp] covers the years 1 to 9999. *)
Definition sample_platform : Platform :=
  mkPlatform (λ t, (-62135596800 <=? t) && (t <=? 253402300799)).

(** The state of [main] after its loop, [init] if the loop failed. *)
Definition finished_state {env : Env} {pf : Platform}
           (records : list WeatherRecord) : state :=
  match main_loop_utc records with
  | Finished st => st
  | Failed _ => init
  end.

(** One observation with rain under a rule, in the year 33658. *)
Definition far_future : list WeatherRecord :=
  [obs_A 1000000000000 (Some (q 15)) "Rain"].

(** * Properties *)

(** Decide a closed decidable proposition by evaluation. *)
Ltac by_eval := apply (bool_decide_unpack _); vm_compute; exact I.

(** ** Order on floats *)

Lemma Qc_ltb_lt x y : Qc_ltb x y = true ↔ (x < y)%Qc.
Proof. unfold Qc_ltb. apply bool_decide_eq_true. Qed.

Lemma Qc_leb_le x y : Qc_leb x y = true ↔ (x ≤ y)%Qc.
Proof. unfold Qc_leb. apply bool_decide_eq_true. Qed.

Lemma xleb_xle a b : xleb a b = true ↔ xle a b.
Proof.
  destruct a, b; simpl; rewrite ?Qc_leb_le;
    split; intros H; try discriminate; try constructor; try done;
    by inversion H.
Qed.

Lemma xltb_xlt a b : xltb a b = true ↔ xlt a b.
Proof.
  destruct a, b; simpl; rewrite ?Qc_ltb_lt;
    split; intros H; try discriminate; try constructor; try done;
    by inversion H.
Qed.

Lemma xle_refl a : xle a a.
Proof. destruct a; constructor. apply Qcle_refl. Qed.

Lemma xle_trans a b c : xle a b → xle b c → xle a c.
Proof.
  intros Hab Hbc. destruct Hab; inversion Hbc; subst; try constructor.
  by eapply Qcle_trans.
Qed.

Lemma xlt_xle a b : xlt a b → xle a b.
Proof. intros []; constructor. by apply Qclt_le_weak. Qed.

Lemma xlt_not_xle a b : xlt a b → ¬ xle b a.
Proof.
  intros Hlt Hle. destruct Hlt; inversion Hle; subst.
  by eapply Qclt_not_le.
Qed.

Lemma fmin_le_l a b : xle (fmin a b) a.
Proof.
  unfold fmin. destruct (xltb b a) eqn:E.
  - by apply xlt_xle, xltb_xlt.
  - apply xle_refl.
Qed.

Lemma fmin_inf_fin x : fmin inf (Fin x) = Fin x.
Proof. reflexivity. Qed.

(** ** Strict total orders *)

Section strict_total.
Context {A : Type} (ltb : A → A → bool) `{!StrictTotal ltb}.

Lemma ltb_asym x y : ltb x y = true → ltb y x = false.
Proof.
  intros Hxy. destruct (ltb y x) eqn:Hyx; [|done].
  pose proof (ltb_trans (ltb := ltb) x y x Hxy Hyx) as Hxx.
  by rewrite ltb_irrefl in Hxx.
Qed.

Lemma ltb_neq x y : ltb x y = true → x ≠ y.
Proof. intros Hxy ->. by rewrite ltb_irrefl in Hxy. Qed.

(** "Not after" is transitive. *)
Lemma ltb_false_trans x y z : ltb y x = false → ltb z y = false → ltb z x = false.
Proof.
  intros Hyx Hzy. destruct (ltb z x) eqn:Hzx; [|done].
  destruct (ltb x y) eqn:Hxy.
  - pose proof (ltb_trans (ltb := ltb) z x y Hzx Hxy). congruence.
  - rewrite (ltb_total (ltb := ltb) x y Hxy Hyx) in Hzx. congruence.
Qed.
End strict_total.

Global Instance lex_strict_total {A B} `{EqDecision A}
  (ltA : A → A → bool) (ltB : B → B → bool)
  `{!StrictTotal ltA, !StrictTotal ltB} : StrictTotal (lex ltA ltB).
Proof.
  split.
  - intros [a b]. unfold lex. simpl. rewrite decide_False by (by intros []).
    apply ltb_irrefl.
  - intros [a1 b1] [a2 b2] [a3 b3]. unfold lex. simpl.
    destruct (decide (a1 ≠ a2)) as [H12|H12%dec_stable];
      destruct (decide (a2 ≠ a3)) as [H23|H23%dec_stable]; subst.
    + intros Hlt1 Hlt2. pose proof (ltb_trans _ _ _ Hlt1 Hlt2) as Hlt.
      rewrite decide_True; [done|]. by eapply ltb_neq.
    + intros Hlt1 _. by rewrite decide_True.
    + intros _ Hlt2. by rewrite decide_True.
    + intros Hlt1 Hlt2. rewrite decide_False by (by intros []).
      by eapply ltb_trans.
  - intros [a1 b1] [a2 b2]. unfold lex. simpl.
    destruct (decide (a1 ≠ a2)) as [H12|H12%dec_stable].
    + rewrite decide_True by done. intros H1 H2.
      by destruct H12; apply (ltb_total (ltb := ltA)).
    + subst. rewrite decide_False by (by intros []). intros H1 H2.
      f_equal. by apply (ltb_total (ltb := ltB)).
Qed.

Global Instance Z_ltb_strict_total : StrictTotal Z.ltb.
Proof. split; intros *; rewrite ?Z.ltb_lt, ?Z.ltb_ge; lia. Qed.

Global Instance Qc_ltb_strict_total : StrictTotal Qc_ltb.
Proof.
  split.
  - intros x. apply not_true_iff_false. rewrite Qc_ltb_lt.
    by intros ?%Qclt_not_eq.
  - intros x y z. rewrite !Qc_ltb_lt. apply Qclt_trans.
  - intros x y Hxy%not_true_iff_false Hyx%not_true_iff_false.
    rewrite Qc_ltb_lt in Hxy, Hyx.
    apply Qcle_antisym; by apply Qcnot_lt_le.
Qed.

Lemma string_compare_refl s : String.compare s s = Eq.
Proof.
  induction s as [|a s IH]; simpl; [done|].
  unfold Ascii.compare. by rewrite N.compare_refl.
Qed.

Lemma string_compare_lt_trans s1 s2 s3 :
  String.compare s1 s2 = Lt → String.compare s2 s3 = Lt →
  String.compare s1 s3 = Lt.
Proof.
  revert s2 s3. induction s1 as [|a1 s1 IH]; intros [|a2 s2] [|a3 s3];
    simpl; try done.
  unfold Ascii.compare.
  destruct (N.compare_spec (Ascii.N_of_ascii a1) (Ascii.N_of_ascii a2)) as [E12|L12|G12];
    destruct (N.compare_spec (Ascii.N_of_ascii a2) (Ascii.N_of_ascii a3)) as [E23|L23|G23];
    try done; intros H1 H2.
  - rewrite E12, E23, N.compare_refl. by eapply IH.
  - by rewrite (proj2 (N.compare_lt_iff _ _)) by lia.
  - by rewrite (proj2 (N.compare_lt_iff _ _)) by lia.
  - by rewrite (proj2 (N.compare_lt_iff _ _)) by lia.
Qed.

Global Instance string_ltb_strict_total : StrictTotal String.ltb.
Proof.
  split; unfold String.ltb.
  - intros s. by rewrite string_compare_refl.
  - intros s1 s2 s3.
    destruct (String.compare s1 s2) eqn:H12; try done.
    destruct (String.compare s2 s3) eqn:H23; try done.
    by rewrite (string_compare_lt_trans s1 s2 s3).
  - intros s1 s2. rewrite (String.compare_antisym s2 s1).
    destruct (String.compare s1 s2) eqn:H12; try done.
    intros _ _. by apply String.compare_eq_iff.
Qed.

Global Instance base_ltb_strict_total : StrictTotal base_ltb.
Proof. unfold base_ltb. apply _. Qed.

(** The sort order is the lexicographic order of the sort keys. *)
Lemma key_ltb_lex a b :
  key_ltb a b = lex base_ltb String.ltb (sort_key a) (sort_key b).
Proof.
  unfold key_ltb, lex, base_ltb, lex, sort_key, base_key. simpl.
  repeat case_decide; simplify_eq; try done; congruence.
Qed.

Global Instance key_le_refl : Reflexive key_le.
Proof. intros a. unfold key_le. rewrite key_ltb_lex. apply ltb_irrefl. Qed.

Global Instance key_le_trans : Transitive key_le.
Proof.
  intros a b c. unfold key_le. rewrite !key_ltb_lex.
  intros Hab Hbc. by eapply (ltb_false_trans (lex base_ltb String.ltb)).
Qed.

Lemma key_ltb_le a b : key_ltb a b = true → key_le a b.
Proof.
  unfold key_le. rewrite !key_ltb_lex.
  apply (ltb_asym (lex base_ltb String.ltb)).
Qed.

(** Between two records of one place and time the sort order leaves room
    for records of that place and time only. *)
Lemma key_le_squeeze a y b :
  key_le a y → key_le y b → base_key a = base_key b →
  base_key y = base_key a.
Proof.
  unfold key_le. rewrite !key_ltb_lex. unfold lex. simpl.
  intros Hay Hyb Hab. rewrite <-Hab in Hyb.
  destruct (decide (base_key y = base_key a)) as [|Hne]; [done|].
  rewrite decide_True in Hay by done.
  rewrite decide_True in Hyb by (by intros ?).
  symmetry. by apply (ltb_total (ltb := base_ltb)).
Qed.

(** ** Dictionaries *)

Section dict_facts.
Context {K V : Type} `{EqDecision K}.
Implicit Types (d : list (K * V)) (k : K) (v : V).

Lemma dict_get_set_eq d k v : dict_get k (dict_set k v d) = Some v.
Proof.
  induction d as [|[k' v'] d IH]; simpl.
  - by rewrite decide_True.
  - destruct (decide (k' = k)) as [->|Hne]; simpl.
    + by rewrite decide_True.
    + by rewrite decide_False.
Qed.

Lemma dict_get_set_ne d k k' v :
  k ≠ k' → dict_get k' (dict_set k v d) = dict_get k' d.
Proof.
  intros Hne. induction d as [|[k0 v0] d IH]; simpl.
  - by rewrite decide_False.
  - destruct (decide (k0 = k)) as [->|Hne0]; simpl.
    + by rewrite !decide_False.
    + by rewrite IH.
Qed.

Lemma dict_get_Some d k v : dict_get k d = Some v → (k, v) ∈ d.
Proof.
  induction d as [|[k' v'] d IH]; simpl; [done|].
  destruct (decide (k' = k)) as [->|Hne].
  - intros [= ->]. apply list_elem_of_here.
  - intros Hget. apply list_elem_of_further. by apply IH.
Qed.

Lemma dict_get_is_Some d k : is_Some (dict_get k d) ↔ k ∈ d.*1.
Proof.
  induction d as [|[k' v'] d IH]; simpl.
  - split; [by intros [? ?]|by intros ?%elem_of_nil].
  - destruct (decide (k' = k)) as [->|Hne].
    + split; [intros _; apply list_elem_of_here|by eauto].
    + rewrite IH. split; [apply list_elem_of_further|].
      intros [?|?]%elem_of_cons; [congruence|done].
Qed.

Lemma dict_set_keys_NoDup d k v : NoDup d.*1 → NoDup (dict_set k v d).*1.
Proof.
  intros Hnd. induction d as [|[k' v'] d IH]; simpl.
  - apply NoDup_singleton.
  - apply NoDup_cons in Hnd as [Hk' Hnd].
    destruct (decide (k' = k)) as [->|Hne]; simpl.
    + by apply NoDup_cons.
    + apply NoDup_cons. split; [|by apply IH].
      rewrite <-dict_get_is_Some, dict_get_set_ne by done.
      by rewrite dict_get_is_Some.
Qed.

Lemma dict_elem_of_get d k v : NoDup d.*1 → (k, v) ∈ d → dict_get k d = Some v.
Proof.
  induction d as [|[k' v'] d IH]; simpl.
  - by intros _ ?%elem_of_nil.
  - intros [Hk' Hnd]%NoDup_cons [Heq|Hin]%elem_of_cons.
    + injection Heq as -> ->. by rewrite decide_True.
    + rewrite decide_False; [by apply IH|].
      intros ->. apply Hk'. apply list_elem_of_fmap. by exists (k, v).
Qed.
End dict_facts.

Lemma NoDup_fst_unique {A B} (l : list (A * B)) k v1 v2 :
  NoDup l.*1 → (k, v1) ∈ l → (k, v2) ∈ l → v1 = v2.
Proof.
  induction l as [|[k' v'] l IH]; simpl.
  - by intros _ ?%elem_of_nil.
  - intros [Hk Hnd]%NoDup_cons Hin1 Hin2.
    assert (∀ v, (k', v) ∈ l → False) as Hfresh.
    { intros v Hv. apply Hk. apply list_elem_of_fmap. by exists (k', v). }
    apply elem_of_cons in Hin1 as [Heq1|Hin1];
      apply elem_of_cons in Hin2 as [Heq2|Hin2]; simplify_eq;
      try done; try (exfalso; eauto; fail).
    by apply IH.
Qed.

(** ** Grouping *)

Section groupby_facts.
Context {A K : Type} `{EqDecision K} (key : A → K).
Implicit Types (l g : list A) (k : K).

Lemma groupby_cons x l :
  groupby key (x :: l) =
    match groupby key l with
    | (k, g) :: gs =>
        if decide (key x = k) then (k, x :: g) :: gs
        else (key x, [x]) :: (k, g) :: gs
    | [] => [(key x, [x])]
    end.
Proof. reflexivity. Qed.

Lemma groupby_concat l : mjoin (groupby key l).*2 = l.
Proof.
  induction l as [|x l IH]; [done|].
  rewrite groupby_cons. destruct (groupby key l) as [|[k g] gs].
  - simpl in *. by rewrite <-IH.
  - case_decide; simpl in *; by rewrite <-IH.
Qed.


Lemma groupby_nonempty l : Forall (λ kg, kg.2 ≠ []) (groupby key l).
Proof.
  induction l as [|x l IH]; [constructor|].
  rewrite groupby_cons. destruct (groupby key l) as [|[k g] gs].
  - by repeat constructor.
  - apply Forall_cons in IH as [Hg Hgs].
    case_decide; by repeat constructor.
Qed.

Lemma groupby_keys l :
  Forall (λ kg, Forall (λ x, key x = kg.1) kg.2) (groupby key l).
Proof.
  induction l as [|x l IH]; [constructor|].
  rewrite groupby_cons. destruct (groupby key l) as [|[k g] gs].
  - by repeat constructor.
  - apply Forall_cons in IH as [Hg Hgs].
    case_decide; by repeat constructor.
Qed.

Lemma groupby_adjacent l i kg1 kg2 :
  groupby key l !! i = Some kg1 → groupby key l !! S i = Some kg2 →
  kg1.1 ≠ kg2.1.
Proof.
  revert i kg1 kg2. induction l as [|x l IH]; intros i kg1 kg2; [done|].
  rewrite groupby_cons. destruct (groupby key l) as [|[k g] gs]; [done|].
  case_decide as Hk.
  - destruct i as [|i]; simpl.
    + intros [= <-] H2. by apply (IH 0%nat (k, g) kg2).
    + intros H1 H2. by apply (IH (S i)).
  - destruct i as [|i]; simpl.
    + by intros [= <-] [= <-].
    + intros H1 H2. by apply (IH i).
Qed.


Lemma groupby_head l k g gs :
  groupby key l = (k, g) :: gs →
  ∃ y g', g = y :: g' ∧ head l = Some y ∧ k = key y.
Proof.
  destruct l as [|x l]; [done|]. rewrite groupby_cons.
  destruct (groupby key l) as [|[k' g'] gs'].
  - intros [= <- <- <-]. by exists x, [].
  - case_decide as Hk.
    + intros [= <- <- <-]. by exists x, g'.
    + intros [= <- <- <-]. by exists x, [].
Qed.

End groupby_facts.

Section grown_facts.
Context {A K : Type} `{EqDecision K} (key : A → K).

Lemma groupby_push x l : groupby key (x :: l) = push_group key x (groupby key l).
Proof. reflexivity. Qed.



End grown_facts.

(** ** Sorting *)

Lemma insert_sorted_perm x l : insert_sorted x l ≡ₚ x :: l.
Proof.
  induction l as [|y l IH]; simpl; [done|].
  destruct (key_ltb x y); [done|]. by rewrite IH, Permutation_swap.
Qed.

Lemma sort_perm records : sort records ≡ₚ records.
Proof.
  unfold sort. rewrite <-(app_nil_r records) at 2.
  generalize (@nil WeatherRecord) as acc.
  induction records as [|x l IH]; intros acc; simpl; [done|].
  rewrite IH, insert_sorted_perm. by rewrite Permutation_middle.
Qed.

Lemma sort_snoc records x : sort (records ++ [x]) = insert_sorted x (sort records).
Proof. unfold sort. by rewrite fold_left_app. Qed.


Lemma insert_sorted_sorted x l :
  StronglySorted key_le l → StronglySorted key_le (insert_sorted x l).
Proof.
  induction 1 as [|y l Hl IH Hy]; simpl.
  - repeat constructor.
  - destruct (key_ltb x y) eqn:E.
    + apply key_ltb_le in E. repeat constructor; [done..|].
      eapply Forall_impl; [done|]. intros z Hz. by etrans.
    + constructor; [done|]. rewrite insert_sorted_perm. by constructor.
Qed.

(** [sort] returns its input in sort order. *)
Lemma sort_sorted records : StronglySorted key_le (sort records).
Proof.
  induction records as [|x records IH] using rev_ind.
  - constructor.
  - rewrite sort_snoc. by apply insert_sorted_sorted.
Qed.



(** ** Sorted lists and the first records of the groups *)

Lemma StronglySorted_sublist {A} (R : relation A) l1 l2 :
  l1 `sublist_of` l2 → StronglySorted R l2 → StronglySorted R l1.
Proof.
  induction 1 as [|x l1 l2 Hsub IH|x l1 l2 Hsub IH];
    intros Hsorted; [done|..];
    apply StronglySorted_cons in Hsorted as [Hx Hsorted].
  - constructor; [by apply IH|]. apply Forall_forall. intros y Hy.
    apply (proj1 (Forall_forall _ _) Hx). by eapply elem_of_sublist.
  - by apply IH.
Qed.

Lemma StronglySorted_lookup {A} (R : relation A) l i j a b :
  StronglySorted R l → (i < j)%nat → l !! i = Some a → l !! j = Some b → R a b.
Proof.
  intros Hsorted. revert i j.
  induction Hsorted as [|x l Hl IH Hx]; intros i j Hij Hi Hj; [done|].
  destruct j as [|j]; [lia|]. destruct i as [|i]; simpl in *.
  - injection Hi as <-. apply (proj1 (Forall_forall _ _) Hx).
    by eapply list_elem_of_lookup_2.
  - apply (IH i j); [lia|done..].
Qed.

Lemma StronglySorted_of_lookup {A} (R : relation A) l :
  (∀ i j a b, (i < j)%nat → l !! i = Some a → l !! j = Some b → R a b) →
  StronglySorted R l.
Proof.
  induction l as [|x l IH]; intros Hl; constructor.
  - apply IH. intros i j a b Hij Hi Hj. apply (Hl (S i) (S j)); [lia|done..].
  - apply Forall_lookup. intros j b Hj. apply (Hl 0%nat (S j)); [lia|done..].
Qed.

Lemma omap_head_cons {A} (x : A) g gs :
  omap head ((x :: g) :: gs) = x :: omap head gs.
Proof. reflexivity. Qed.

(** The first records of non-empty groups line up with the groups. *)
Lemma omap_head_lookup {A} (gs : list (list A)) i :
  Forall (λ g, g ≠ []) gs → omap head gs !! i = gs !! i ≫= head.
Proof.
  intros Hne. revert i. induction Hne as [|[|x g] gs Hg _ IH]; intros i; [done..|].
  rewrite omap_head_cons. destruct i as [|i]; [done|]. apply IH.
Qed.

Section heads.
Context {A K : Type} `{EqDecision K} (key : A → K).

Lemma heads_push x gs :
  Forall (λ kg, kg.2 ≠ []) gs →
  ∃ hs, omap head (push_group key x gs).*2 = x :: hs ∧
        hs `sublist_of` omap head gs.*2.
Proof.
  intros Hne. destruct gs as [|[k [|y g]] gs]; simpl.
  - by exists [].
  - by apply Forall_cons in Hne as [? _].
  - case_decide; simpl.
    + exists (omap head gs.*2). split; [done|]. by apply sublist_cons.
    + by eexists.
Qed.

(** The first records of the groups appear in the list in their order. *)
Lemma heads_sublist l : omap head (groupby key l).*2 `sublist_of` l.
Proof.
  induction l as [|x l IH]; [done|]. rewrite groupby_push.
  destruct (heads_push x (groupby key l)) as (hs & -> & Hhs).
  { apply groupby_nonempty. }
  apply sublist_skip. by etrans.
Qed.

Lemma groupby_group_nonempty l : Forall (λ g, g ≠ []) (groupby key l).*2.
Proof. apply Forall_fmap. apply groupby_nonempty. Qed.

(** Two neighbouring groups start with records of different keys. *)
Lemma heads_adjacent l i a c :
  omap head (groupby key l).*2 !! i = Some a →
  omap head (groupby key l).*2 !! S i = Some c →
  key a ≠ key c.
Proof.
  rewrite !omap_head_lookup by apply groupby_group_nonempty.
  rewrite !list_lookup_fmap.
  destruct (groupby key l !! i) as [[k1 g1]|] eqn:E1; [|done].
  destruct (groupby key l !! S i) as [[k2 g2]|] eqn:E2; [|done]. simpl.
  intros Ha Hc. pose proof (groupby_adjacent key l i _ _ E1 E2) as Hne.
  pose proof (groupby_keys key l) as Hkeys. rewrite Forall_lookup in Hkeys.
  pose proof (Hkeys _ _ E1) as Hk1. pose proof (Hkeys _ _ E2) as Hk2.
  simpl in *. destruct g1 as [|a' g1]; [done|]. destruct g2 as [|c' g2]; [done|].
  injection Ha as <-. injection Hc as <-.
  apply Forall_cons in Hk1 as [-> _]. by apply Forall_cons in Hk2 as [-> _].
Qed.
End heads.

(** ** Windows *)

Lemma lastn_length {A} n (l : list A) : length (lastn n l) = (length l `min` n)%nat.
Proof. unfold lastn. rewrite length_drop. lia. Qed.

Lemma lastn_all {A} n (l : list A) : (length l ≤ n)%nat → lastn n l = l.
Proof. intros Hl. unfold lastn. by replace (length l - n)%nat with 0%nat by lia. Qed.

Lemma filter_all {A} (P : A → Prop) `{∀ x, Decision (P x)} (l : list A) :
  Forall P l → filter P l = l.
Proof.
  induction 1 as [|x l Hx Hl IH]; [done|].
  by rewrite filter_cons_True, IH.
Qed.

Lemma filter_none {A} (P : A → Prop) `{∀ x, Decision (P x)} (l : list A) :
  Forall (λ x, ¬ P x) l → filter P l = [].
Proof.
  induction 1 as [|x l Hx Hl IH]; [done|].
  by rewrite filter_cons_False.
Qed.

(** Appending then evicting above [n] keeps the last [n] elements. *)
Lemma lastn_snoc {A} n (l : list A) x :
  (0 < n)%nat →
  lastn n (l ++ [x]) =
    let l' := lastn n l ++ [x] in
    if bool_decide (n < length l')%nat then tail l' else l'.
Proof.
  intros Hn. cbv zeta. rewrite length_app, lastn_length. simpl.
  unfold lastn. rewrite length_app. simpl.
  destruct (decide (length l < n)%nat) as [Hlt|Hge].
  - rewrite bool_decide_eq_false_2 by lia.
    by replace (length l + 1 - n)%nat with 0%nat by lia;
       replace (length l - n)%nat with 0%nat by lia.
  - rewrite bool_decide_eq_true_2 by lia.
    rewrite drop_app_le by lia.
    replace (length l + 1 - n)%nat with (S (length l - n)) by lia.
    destruct (drop (length l - n) l) as [|y l'] eqn:E.
    + apply (f_equal length) in E. rewrite length_drop in E. simpl in E. lia.
    + simpl. f_equal.
      replace (S (length l - n)) with (length l - n + 1)%nat by lia.
      by rewrite <-drop_drop, E.
Qed.

(** ** The loop *)

Section facts.
Context {env : Env}.
Implicit Types (st : state) (rec : WeatherRecord) (recs : list WeatherRecord)
  (groups : list (list WeatherRecord)) (lc : Location) (d : Data).

Lemma run_app st groups1 groups2 :
  run st (groups1 ++ groups2) = st' ←! run st groups1; run st' groups2.
Proof.
  revert st. induction groups1 as [|g gs IH]; intros st; simpl; [done|].
  destruct (process_group st g); simpl; [apply IH|done].
Qed.

Lemma run_cons st recs groups :
  run st (recs :: groups) = st' ←! process_group st recs; run st' groups.
Proof. reflexivity. Qed.

Lemma run_single st recs : run st [recs] = process_group st recs.
Proof. simpl. by destruct (process_group st recs). Qed.

Lemma run_snoc st groups recs :
  run st (groups ++ [recs]) = st' ←! run st groups; process_group st' recs.
Proof.
  rewrite run_app. destruct (run st groups) as [st'|]; simpl; [|done].
  by destruct (process_group st' recs).
Qed.

(** The window a group leaves behind. *)
Lemma update_window_Ok data rec d :
  update_window data rec = Ok d ↔
  ∃ d0,
    match dict_get (Location_of rec) data with
    | None => d0 = mkData (Location_of rec) (dt rec - 3600) (dt rec) []
    | Some d1 =>
        (Location_of rec ≠ loc d1 ∨ dt rec = dt_to d1 + 3600) ∧
        d0 = mkData (loc d1) (dt_from d1) (dt rec) (rain_24h d1)
    end ∧
    d = mkData (loc d0) (dt_from d0) (dt_to d0)
          (let l := rain_24h d0 ++ [rain_of rec] in
           if bool_decide (24 < length l)%nat then tail l else l).
Proof.
  unfold update_window, rain_of.
  destruct (dict_get (Location_of rec) data) as [d1|]; simpl.
  - destruct (bool_decide (Location_of rec ≠ loc d1)
              || bool_decide (dt rec = dt_to d1 + 3600)) eqn:E; simpl.
    + apply orb_true_iff in E. rewrite !bool_decide_eq_true in E.
      split.
      * intros [= <-]. eexists. split; [split; [done|reflexivity]|done].
      * by intros (d0 & [_ ->] & ->).
    + apply orb_false_iff in E. rewrite !bool_decide_eq_false in E.
      split; [done|]. intros (d0 & [[?|?] _] & _); tauto.
  - split.
    + intros [= <-]. by eexists.
    + by intros (d0 & -> & ->).
Qed.

(** What one iteration of the loop does to the state. *)
Lemma process_group_Ok st g st' :
  process_group st g = Ok st' ↔
  ∃ rec recs d,
    g = rec :: recs ∧
    update_window (data st) rec = Ok d ∧
    let lc := Location_of rec in
    let rain := sum (rain_24h d) in
    let flooded := Qc_leb rain_threshold rain in
    let level := group_skill g rain in
    st' = mkState
            (dict_set lc d (data st))
            (if flooded then {[lc]} ∪ rain_flood st else rain_flood st)
            (if flooded then update_anchors (point_of lc) (river_flood st)
             else river_flood st)
            (if bool_decide (level ≠ NONE)
             then printed st ++ [mkSkillReport lc level (dt (List.last g rec))]
             else printed st).
Proof.
  unfold process_group. destruct g as [|rec recs].
  - split; [done|]. by intros (? & ? & ? & ? & _).
  - destruct (update_window (data st) rec) as [d|e] eqn:E; simpl.
    + split.
      * intros [= <-]. by exists rec, recs, d.
      * intros (? & ? & ? & [= <- <-] & Hd & ->).
        rewrite E in Hd. by injection Hd as <-.
    + split; [done|]. intros (? & ? & ? & [= <- <-] & Hd & _). congruence.
Qed.

(** *** Histories *)

Lemma obs_of_snoc lc groups rec recs :
  obs_of lc (groups ++ [rec :: recs]) =
    obs_of lc groups ++ (if decide (Location_of rec = lc) then [rec] else []).
Proof.
  unfold obs_of. by rewrite omap_app, filter_app.
Qed.

Lemma reached_snoc h rec :
  reached (h ++ [rec]) ↔
  reached h ∨ (rain_threshold ≤ rolling (rain_of <$> (h ++ [rec])))%Qc.
Proof.
  unfold reached. split.
  - intros (k & Hk & Hthr). rewrite length_app in Hk. simpl in Hk.
    destruct (decide (k ≤ length h)%nat) as [Hle|Hgt].
    + left. exists k. split; [lia|]. by rewrite take_app_le in Hthr.
    + right. by rewrite take_ge in Hthr by (rewrite length_app; simpl; lia).
  - intros [(k & Hk & Hthr)|Hthr].
    + exists k. rewrite length_app. split; [lia|].
      by rewrite take_app_le by lia.
    + exists (S (length h)). rewrite length_app. simpl. split; [lia|].
      by rewrite take_ge by (rewrite length_app; simpl; lia).
Qed.

(** *** The invariant of the loop *)

Lemma window_inv_open rec :
  window_inv [rec] (Location_of rec)
    (mkData (Location_of rec) (dt rec - 3600) (dt rec) [rain_of rec]).
Proof.
  split_and!; simpl; try done.
  intros [|i] r; simpl; [|done]. intros [= <-]. lia.
Qed.

Lemma window_inv_extend h lc d rec :
  window_inv h lc d → dt rec = dt_to d + 3600 →
  window_inv (h ++ [rec]) lc
    (mkData (loc d) (dt_from d) (dt rec)
       (let l := rain_24h d ++ [rain_of rec] in
        if bool_decide (24 < length l)%nat then tail l else l)).
Proof.
  intros (Hloc & Hne & Hrain & Hfrom & Hdt) Hrec.
  split_and!; simpl.
  - done.
  - by destruct h.
  - rewrite fmap_app, Hrain. simpl. by rewrite lastn_snoc by lia.
  - rewrite length_app. simpl. lia.
  - intros i r Hi. rewrite length_app. simpl.
    destruct (decide (i < length h)%nat) as [Hlt|Hge].
    + rewrite lookup_app_l in Hi by done. apply Hdt in Hi. lia.
    + rewrite lookup_app_r in Hi by lia.
      destruct (i - length h)%nat as [|j] eqn:Ej; simpl in Hi; [|done].
      injection Hi as <-. lia.
Qed.

Lemma process_group_data_inv groups st g st' :
  data_inv groups st → process_group st g = Ok st' →
  data_inv (groups ++ [g]) st'.
Proof.
  intros Hinv (rec & recs & d & -> & Hd & ->)%process_group_Ok lc.
  cbv zeta. simpl. rewrite obs_of_snoc.
  destruct (decide (Location_of rec = lc)) as [<-|Hne].
  - rewrite dict_get_set_eq.
    apply update_window_Ok in Hd as (d0 & Hd0 & ->).
    specialize (Hinv (Location_of rec)).
    destruct (dict_get (Location_of rec) (data st)) as [d1|].
    + destruct Hd0 as [Hcont ->]. simpl.
      apply window_inv_extend; [done|].
      destruct Hinv as [Hloc _]. by destruct Hcont.
    + subst d0. rewrite Hinv. simpl. apply window_inv_open.
  - rewrite dict_get_set_ne by done. rewrite app_nil_r. apply Hinv.
Qed.

Lemma process_group_rain_inv groups st g st' :
  data_inv groups st → rain_inv groups st → process_group st g = Ok st' →
  rain_inv (groups ++ [g]) st'.
Proof.
  intros Hdata Hrain Hstep lc. unfold rain_inv in Hrain.
  pose proof (process_group_data_inv _ _ _ _ Hdata Hstep) as Hdata'.
  apply process_group_Ok in Hstep as (rec & recs & d & -> & Hd & ->).
  cbv zeta. simpl. specialize (Hdata' (Location_of rec)). simpl in Hdata'.
  rewrite dict_get_set_eq in Hdata'. destruct Hdata' as (_ & _ & Hwin & _).
  rewrite obs_of_snoc in Hwin. rewrite decide_True in Hwin by done.
  rewrite obs_of_snoc.
  destruct (decide (Location_of rec = lc)) as [<-|Hne].
  - rewrite reached_snoc. unfold rolling. rewrite <-Hwin.
    destruct (Qc_leb rain_threshold (sum (rain_24h d))) eqn:E.
    + apply Qc_leb_le in E. rewrite elem_of_union, elem_of_singleton.
      rewrite Hrain. tauto.
    + assert (¬ (rain_threshold ≤ sum (rain_24h d))%Qc) as Hnot.
      { intros Hle%Qc_leb_le. congruence. }
      rewrite Hrain. tauto.
  - rewrite app_nil_r.
    destruct (Qc_leb rain_threshold (sum (rain_24h d))).
    + rewrite elem_of_union, elem_of_singleton, Hrain.
      split; [intros [->|?]; done|by right].
    + apply Hrain.
Qed.

Lemma init_inv : data_inv [] init ∧ rain_inv [] init.
Proof.
  split; intros lc; simpl; [done|].
  split; [by intros ?%not_elem_of_empty|].
  intros (k & Hk & _). simpl in Hk. lia.
Qed.

Lemma run_inv groups st :
  run init groups = Ok st → data_inv groups st ∧ rain_inv groups st.
Proof.
  revert st. induction groups as [|g groups IH] using rev_ind; intros st.
  - intros [= <-]. apply init_inv.
  - rewrite run_snoc. destruct (run init groups) as [st0|]; simpl; [|done].
    intros Hstep. destruct (IH st0 eq_refl) as [Hdata Hrain].
    eauto using process_group_data_inv, process_group_rain_inv.
Qed.

(** *** Anchors *)

Lemma anchor_step_le p rf item river :
  xle (default inf (anchor_step p rf item !! river)) (default inf (rf !! river)).
Proof.
  destruct item as [r line]. simpl.
  destruct (Qc_ltb (distance line p) river_margin); [|apply xle_refl].
  destruct (decide (r = river)) as [->|Hne].
  - rewrite lookup_insert_eq. simpl. apply fmin_le_l.
  - rewrite lookup_insert_ne by done. apply xle_refl.
Qed.

Lemma fold_anchor_le p (l : list (string * LineString)) rf river :
  xle (default inf (fold_left (anchor_step p) l rf !! river))
      (default inf (rf !! river)).
Proof.
  revert rf. induction l as [|item l IH]; intros rf; simpl; [apply xle_refl|].
  eapply xle_trans; [apply IH|apply anchor_step_le].
Qed.

Lemma fold_anchor_other p (l : list (string * LineString)) rf river :
  river ∉ l.*1 → fold_left (anchor_step p) l rf !! river = rf !! river.
Proof.
  revert rf. induction l as [|[r line] l IH]; intros rf Hnotin; simpl; [done|].
  apply not_elem_of_cons in Hnotin as [Hne Hnotin]. rewrite IH by done.
  simpl. destruct (Qc_ltb (distance line p) river_margin); [|done].
  by rewrite lookup_insert_ne.
Qed.

Lemma fold_anchor_lookup p (l : list (string * LineString)) rf river line :
  NoDup l.*1 → (river, line) ∈ l →
  fold_left (anchor_step p) l rf !! river =
    if Qc_ltb (distance line p) river_margin
    then Some (fmin (default inf (rf !! river)) (Fin (project line p)))
    else rf !! river.
Proof.
  revert rf. induction l as [|[r line0] l IH]; intros rf Hnd Hin.
  { by apply elem_of_nil in Hin. }
  apply NoDup_cons in Hnd as [Hr Hnd].
  apply elem_of_cons in Hin as [[= -> ->]|Hin]; simpl.
  - rewrite fold_anchor_other by done.
    destruct (Qc_ltb (distance line0 p) river_margin); [|done].
    by rewrite lookup_insert_eq.
  - assert (r ≠ river) as Hne.
    { intros ->. apply Hr. apply list_elem_of_fmap. by exists (river, line). }
    rewrite IH by done.
    destruct (Qc_ltb (distance line0 p) river_margin); [|done].
    by rewrite lookup_insert_ne.
Qed.

Lemma process_group_anchor_le st g st' river :
  process_group st g = Ok st' → xle (anchor st' river) (anchor st river).
Proof.
  intros (rec & recs & d & -> & Hd & ->)%process_group_Ok.
  unfold anchor. simpl.
  destruct (Qc_leb rain_threshold (sum (rain_24h d))); [|apply xle_refl].
  apply fold_anchor_le.
Qed.

Lemma run_anchor_le st groups st' river :
  run st groups = Ok st' → xle (anchor st' river) (anchor st river).
Proof.
  revert st. induction groups as [|g groups IH]; intros st; simpl.
  - intros [= <-]. apply xle_refl.
  - destruct (process_group st g) as [st1|] eqn:E; simpl; [|done].
    intros Hrun. eapply xle_trans; [by apply IH|].
    by eapply process_group_anchor_le.
Qed.

(** *** The second pass *)

Lemma downstream_spec rf p river line :
  downstream rf p (river, line) = true ↔
  (distance line p < river_margin)%Qc ∧
  xle (default inf (rf !! river)) (Fin (project line p)).
Proof.
  unfold downstream. by rewrite andb_true_iff, Qc_ltb_lt, xleb_xle.
Qed.

Lemma elem_of_river_flood_report st lc river :
  (lc, river) ∈ river_flood_report st ↔
  (lc ∈ (data st).*1) ∧ (lc ∉ rain_flood st) ∧
  ∃ line, (river, line) ∈ RIVERS ∧
          (distance line (point_of lc) < river_margin)%Qc ∧
          xle (anchor st river) (Fin (project line (point_of lc))).
Proof.
  unfold river_flood_report, anchor. rewrite list_elem_of_bind. split.
  - intros ([lc' d] & Hin & Hdata). case_bool_decide as Hrain.
    { by apply elem_of_nil in Hin. }
    apply list_elem_of_bind in Hin as ([river' line] & Hin & Hriv).
    destruct (downstream (river_flood st) (point_of lc') (river', line)) eqn:E.
    + apply list_elem_of_singleton in Hin as [= -> ->].
      apply downstream_spec in E as [Hnear Hdown].
      split_and!; [|done|by exists line].
      apply list_elem_of_fmap. by exists (lc', d).
    + by apply elem_of_nil in Hin.
  - intros (Hdata & Hrain & line & Hriv & Hnear & Hdown).
    apply list_elem_of_fmap in Hdata as ([lc' d] & -> & Hdata).
    exists (lc', d). split; [|done]. simpl.
    rewrite bool_decide_eq_false_2 by done.
    apply list_elem_of_bind. exists (river, line). split; [|done].
    assert (downstream (river_flood st) (point_of lc') (river, line) = true)
      as -> by by apply downstream_spec.
    apply list_elem_of_here.
Qed.

(** *** Skill rules *)

Lemma check_spec r v :
  check r v = true ↔
  if inc r then xle (start r) (Fin v) ∧ xle (Fin v) (stop r)
  else xlt (start r) (Fin v) ∧ xlt (Fin v) (stop r).
Proof.
  unfold check. destruct (inc r);
    by rewrite andb_true_iff, ?xleb_xle, ?xltb_xlt.
Qed.

Lemma rule_applies_spec r2s rec rain_sum :
  rule_applies r2s rec rain_sum = true ↔
  weather r2s = weather_description rec ∧ check (rain r2s) rain_sum = true.
Proof.
  unfold rule_applies. by rewrite andb_true_iff, bool_decide_eq_true.
Qed.

Lemma skill_max_value a b :
  skill_value (skill_max a b) = skill_value a `max` skill_value b.
Proof. unfold skill_max. destruct (Z.ltb_spec (skill_value a) (skill_value b)); lia. Qed.

Lemma skill_max_cases a b : skill_max a b = a ∨ skill_max a b = b.
Proof. unfold skill_max. destruct (skill_value a <? skill_value b); auto. Qed.

Lemma skill_value_inj a b : skill_value a = skill_value b → a = b.
Proof. by destruct a, b. Qed.

Section rules_loop.
Variables (rec : WeatherRecord) (rain_sum : Qc).
Implicit Types (rules : list RainToSkill) (level : SkillLevel).

Lemma fold_rule_ge rules level :
  skill_value level ≤
    skill_value (fold_left (rule_step rec rain_sum) rules level).
Proof.
  revert level. induction rules as [|r2s rules IH]; intros level; simpl; [lia|].
  etrans; [|apply IH]. unfold rule_step.
  destruct (rule_applies r2s rec rain_sum); [|lia].
  rewrite skill_max_value. lia.
Qed.

Lemma fold_rule_bound rules level r2s :
  r2s ∈ rules → rule_applies r2s rec rain_sum = true →
  skill_value (skill r2s) ≤
    skill_value (fold_left (rule_step rec rain_sum) rules level).
Proof.
  revert level. induction rules as [|r rules IH]; intros level Hin Happ.
  { by apply elem_of_nil in Hin. }
  apply elem_of_cons in Hin as [->|Hin]; simpl; [|by apply IH].
  etrans; [|apply fold_rule_ge]. unfold rule_step. rewrite Happ.
  rewrite skill_max_value. lia.
Qed.

Lemma fold_rule_attained rules level :
  fold_left (rule_step rec rain_sum) rules level = level ∨
  ∃ r2s, r2s ∈ rules ∧ rule_applies r2s rec rain_sum = true ∧
         skill r2s = fold_left (rule_step rec rain_sum) rules level.
Proof.
  revert level. induction rules as [|r rules IH]; intros level; simpl; [by left|].
  destruct (IH (rule_step rec rain_sum level r)) as [Heq|(r2s & Hin & Happ & Heq)].
  - rewrite Heq. unfold rule_step.
    destruct (rule_applies r rec rain_sum) eqn:E; [|by left].
    destruct (skill_max_cases level (skill r)) as [->| ->]; [by left|].
    right. exists r. split_and!; [apply list_elem_of_here|done..].
  - right. exists r2s. split_and!; [by apply list_elem_of_further|done..].
Qed.
End rules_loop.

Lemma skill_loop_ge rain_sum recs level :
  skill_value level ≤ skill_value (skill_loop rain_sum recs level).
Proof.
  revert level. induction recs as [|rec recs IH]; intros level; simpl; [lia|].
  etrans; [|apply IH]. apply fold_rule_ge.
Qed.

Lemma skill_loop_bound rain_sum recs level rec r2s :
  rec ∈ recs → r2s ∈ RAIN_TO_SKILLS → rule_applies r2s rec rain_sum = true →
  skill_value (skill r2s) ≤ skill_value (skill_loop rain_sum recs level).
Proof.
  revert level. induction recs as [|rec0 recs IH]; intros level Hin Hr Happ.
  { by apply elem_of_nil in Hin. }
  apply elem_of_cons in Hin as [->|Hin]; simpl; [|by apply IH].
  etrans; [|apply skill_loop_ge]. by apply fold_rule_bound.
Qed.

Lemma skill_loop_attained rain_sum recs level :
  skill_loop rain_sum recs level = level ∨
  ∃ rec r2s, rec ∈ recs ∧ r2s ∈ RAIN_TO_SKILLS ∧
             rule_applies r2s rec rain_sum = true ∧
             skill r2s = skill_loop rain_sum recs level.
Proof.
  revert level. induction recs as [|rec0 recs IH]; intros level; simpl; [by left|].
  destruct (IH (fold_left (rule_step rec0 rain_sum) RAIN_TO_SKILLS level))
    as [Heq|(rec & r2s & Hin & Hr & Happ & Heq)].
  - rewrite Heq.
    destruct (fold_rule_attained rec0 rain_sum RAIN_TO_SKILLS level)
      as [->|(r2s & Hr & Happ & Heq')]; [by left|].
    right. exists rec0, r2s. split_and!; [apply list_elem_of_here|done..].
  - right. exists rec, r2s. split_and!; [by apply list_elem_of_further|done..].
Qed.

(** *** Tracked locations *)

Lemma groups_of_elem records rec :
  rec ∈ records →
  ∃ g rec0, g ∈ groups_of records ∧ rec ∈ g ∧ head g = Some rec0 ∧
            group_key rec0 = group_key rec.
Proof.
  intros Hin. unfold groups_of.
  rewrite <-(sort_perm records), <-(groupby_concat group_key) in Hin.
  apply list_elem_of_join in Hin as (g & Hrec & Hg).
  exists g. pose proof Hg as Hg'.
  apply list_elem_of_fmap in Hg' as ([k g'] & -> & Hkg). simpl in *.
  pose proof (groupby_keys group_key (sort records)) as Hkeys.
  rewrite Forall_forall in Hkeys. specialize (Hkeys _ Hkg). simpl in Hkeys.
  rewrite Forall_forall in Hkeys.
  destruct g' as [|rec0 g']; [by apply elem_of_nil in Hrec|].
  exists rec0. split_and!; [done..|].
  rewrite (Hkeys rec0), (Hkeys rec); [done|done|apply list_elem_of_here].
Qed.

Lemma group_key_Location rec rec' :
  group_key rec = group_key rec' → Location_of rec = Location_of rec'.
Proof. unfold group_key, Location_of. by intros [= -> _ -> -> _]. Qed.

Lemma run_tracks groups st g rec :
  run init groups = Ok st → g ∈ groups → head g = Some rec →
  Location_of rec ∈ (data st).*1.
Proof.
  intros [Hdata _]%run_inv Hg Hhead. apply dict_get_is_Some.
  specialize (Hdata (Location_of rec)).
  destruct (dict_get (Location_of rec) (data st)); [done|].
  assert (rec ∈ obs_of (Location_of rec) groups) as Hin.
  { apply list_elem_of_filter. split; [done|].
    apply list_elem_of_omap. by exists g. }
  rewrite Hdata in Hin. by apply elem_of_nil in Hin.
Qed.

Lemma main_loop_tracks records st rec :
  main_loop records = Ok st → rec ∈ records →
  Location_of rec ∈ (data st).*1.
Proof.
  intros Hrun (g & rec0 & Hg & _ & Hhead & Hkey)%groups_of_elem.
  rewrite <-(group_key_Location _ _ Hkey). by eapply run_tracks.
Qed.

(** *** Contiguous streams are the ones the loop accepts *)

Lemma window_inv_last h lc d :
  window_inv h lc d → ∃ r, last h = Some r ∧ dt r = dt_to d.
Proof.
  intros (_ & Hne & _ & _ & Hdt).
  destruct (last h) as [r|] eqn:E.
  - exists r. split; [done|]. rewrite last_lookup in E.
    apply Hdt in E. destruct h; [done|]. simpl in E. lia.
  - apply last_None in E. congruence.
Qed.

Lemma window_inv_hourly h lc d : window_inv h lc d → hourly h.
Proof.
  intros (_ & _ & _ & _ & Hdt) i r r' Hi Hi'.
  apply Hdt in Hi, Hi'. lia.
Qed.

Lemma hourly_app_l h1 h2 : hourly (h1 ++ h2) → hourly h1.
Proof.
  intros Hh i r r' Hi Hi'. apply (Hh i); by apply lookup_app_l_Some.
Qed.

Lemma hourly_snoc_last h r rec :
  hourly (h ++ [rec]) → last h = Some r → dt rec = dt r + 3600.
Proof.
  intros Hh Hlast. rewrite last_lookup in Hlast.
  assert (h ≠ []) as Hne by by intros ->.
  apply (Hh (pred (length h))).
  - by apply lookup_app_l_Some.
  - rewrite lookup_app_r by (destruct h; simpl; [done|lia]).
    replace (S (pred (length h)) - length h)%nat with 0%nat; [done|].
    destruct h; simpl; [done|lia].
Qed.

Lemma run_Ok_nonempty st groups st' :
  run st groups = Ok st' → Forall (λ g, g ≠ []) groups.
Proof.
  revert st. induction groups as [|g groups IH]; intros st; simpl; [constructor|].
  destruct (process_group st g) as [st1|] eqn:E; simpl; [|done].
  intros Hrun. constructor; [|by eapply IH].
  by apply process_group_Ok in E as (? & ? & ? & -> & _).
Qed.

Lemma run_Ok_contiguous groups st : run init groups = Ok st → contiguous groups.
Proof.
  intros Hrun. split; [by eapply run_Ok_nonempty|].
  intros lc. apply run_inv in Hrun as [Hdata _]. specialize (Hdata lc).
  destruct (dict_get lc (data st)).
  - by eapply window_inv_hourly.
  - rewrite Hdata. by intros i r r' ?.
Qed.

Lemma contiguous_snoc groups st rec recs :
  contiguous (groups ++ [rec :: recs]) → run init groups = Ok st →
  ∃ d, update_window (data st) rec = Ok d.
Proof.
  intros [_ Hh] [Hdata _]%run_inv.
  specialize (Hh (Location_of rec)). rewrite obs_of_snoc in Hh.
  rewrite decide_True in Hh by done.
  specialize (Hdata (Location_of rec)).
  destruct (dict_get (Location_of rec) (data st)) as [d1|] eqn:E.
  - eexists. apply update_window_Ok. rewrite E. eexists.
    split; [split; [|done]|done]. right.
    destruct (window_inv_last _ _ _ Hdata) as (r & Hlast & <-).
    by eapply hourly_snoc_last.
  - eexists. apply update_window_Ok. rewrite E. by eexists.
Qed.

Lemma contiguous_app_l groups1 groups2 :
  contiguous (groups1 ++ groups2) → contiguous groups1.
Proof.
  intros [Hne Hh]. split; [by apply Forall_app in Hne as [? _]|].
  intros lc. specialize (Hh lc). unfold obs_of in Hh.
  rewrite omap_app, filter_app in Hh. by eapply hourly_app_l.
Qed.

Lemma contiguous_run groups : contiguous groups → ∃ st, run init groups = Ok st.
Proof.
  induction groups as [|g groups IH] using rev_ind; intros Hc.
  - by exists init.
  - destruct (IH (contiguous_app_l _ _ Hc)) as [st Hrun].
    destruct g as [|rec recs].
    { destruct Hc as [Hne _]. apply Forall_app in Hne as [_ Hne].
      rewrite Forall_singleton in Hne. by destruct Hne. }
    destruct (contiguous_snoc _ _ _ _ Hc Hrun) as [d Hd].
    rewrite run_snoc, Hrun. simpl. unfold process_group. rewrite Hd. simpl.
    by eexists.
Qed.

(** *** The window holds the values of the last 24 hours *)

Lemma lastn_fmap {A B} (f : A → B) n (l : list A) :
  lastn n (f <$> l) = f <$> lastn n l.
Proof. unfold lastn. by rewrite fmap_drop, length_fmap. Qed.

Lemma window_inv_filter h lc d :
  window_inv h lc d →
  filter (λ r, dt_to d - 23 * 3600 ≤ dt r ≤ dt_to d) h = lastn 24 h.
Proof.
  intros (_ & _ & _ & _ & Hdt). unfold lastn.
  rewrite <-(take_drop (length h - 24) h) at 1. rewrite filter_app.
  rewrite filter_none, filter_all; [done|..].
  - apply Forall_lookup. intros i r Hi. rewrite lookup_drop in Hi.
    pose proof (lookup_lt_Some _ _ _ Hi). apply Hdt in Hi. lia.
  - apply Forall_lookup. intros i r Hi.
    apply lookup_take_Some in Hi as [Hi Hlt]. apply Hdt in Hi. lia.
Qed.

(** *** Claims about single steps *)

(** C5. Skill evaluation returns the maximum skill level over the rules
    whose weather description equals that of an observation of the group
    and whose rain range accepts the rolling sum, and [NONE] when no rule
    matches; an inclusive range accepts [v] iff [start <= v <= stop], an
    exclusive one iff [start < v < stop]; the level found is the one the
    loop reports; with the rules [0-10 -> BASIC], [10-inf -> ADVANCED] for
    ["Rain"] and a rolling sum of 15 the result is [ADVANCED]. *)
Theorem skill_evaluation_is_max recs rain_sum :
  (∀ r v,
     check r v = true ↔
     if inc r then xle (start r) (Fin v) ∧ xle (Fin v) (stop r)
     else xlt (start r) (Fin v) ∧ xlt (Fin v) (stop r)) ∧
  (∀ rec r2s,
     rec ∈ recs → r2s ∈ RAIN_TO_SKILLS →
     weather r2s = weather_description rec →
     check (rain r2s) rain_sum = true →
     skill_value (skill r2s) ≤ skill_value (group_skill recs rain_sum)) ∧
  (group_skill recs rain_sum = NONE ∨
   ∃ rec r2s,
     rec ∈ recs ∧ r2s ∈ RAIN_TO_SKILLS ∧
     weather r2s = weather_description rec ∧
     check (rain r2s) rain_sum = true ∧
     skill r2s = group_skill recs rain_sum) ∧
  (∀ st st' rec d,
     process_group st recs = Ok st' → head recs = Some rec →
     update_window (data st) rec = Ok d →
     let level := group_skill recs (sum (rain_24h d)) in
     printed st' =
       printed st ++
         (if decide (level = NONE) then []
          else [mkSkillReport (Location_of rec) level (dt (List.last recs rec))])) ∧
  group_skill (env := sample_env) rain_pair (q 15) = ADVANCED_SKILLS ∧
  main (env := sample_env) rain_pair =
    Ok ([mkSkillReport (Location_of (obs_A 0 None "")) ADVANCED_SKILLS 0],
        ∅, []).
Proof.
  split_and!.
  - apply check_spec.
  - intros rec r2s Hrec Hr Hw Hc.
    apply (skill_loop_bound rain_sum recs NONE rec r2s); [done..|].
    by apply rule_applies_spec.
  - destruct (skill_loop_attained rain_sum recs NONE)
      as [Heq|(rec & r2s & Hrec & Hr & [Hw Hc]%rule_applies_spec & Heq)].
    + by left.
    + right. by exists rec, r2s.
  - intros st st' rec d (rec' & recs' & d' & -> & Hd' & ->)%process_group_Ok.
    intros [= <-] Hd. rewrite Hd in Hd'. injection Hd' as <-.
    cbv zeta. simpl printed.
    case_bool_decide; case_decide; try done. by rewrite app_nil_r.
  - by vm_compute.
  - by vm_compute.
Qed.

(** C6. Over the first pass the anchor of every river never increases:
    between any two points of the loop over a contiguous hourly stream the
    later anchor is at most the earlier one (an absent anchor counting as
    [+inf]); one iteration replaces the anchor of a river by
    [min(anchor or +inf, position)] when the group's location is
    rain-flooded and within [river_margin] of the river, and leaves it
    alone otherwise. *)
Theorem anchor_never_increases groups1 groups2 :
  contiguous (groups1 ++ groups2) →
  ∃ st1 st2,
    run init groups1 = Ok st1 ∧
    run st1 groups2 = Ok st2 ∧
    run init (groups1 ++ groups2) = Ok st2 ∧
    (∀ river, xle (anchor st2 river) (anchor st1 river)) ∧
    (∀ rec recs d river line,
       groups2 = [rec :: recs] → update_window (data st1) rec = Ok d →
       NoDup RIVERS.*1 → (river, line) ∈ RIVERS →
       let p := point_of (Location_of rec) in
       anchor st2 river =
         if Qc_leb rain_threshold (sum (rain_24h d))
            && Qc_ltb (distance line p) river_margin
         then fmin (anchor st1 river) (Fin (project line p))
         else anchor st1 river).
Proof.
  intros [st2 Hrun]%contiguous_run. pose proof Hrun as Hrun'.
  rewrite run_app in Hrun'.
  destruct (run init groups1) as [st1|] eqn:Hrun1; [|done]. simpl in Hrun'.
  exists st1, st2. split_and!; [done..| |].
  - intros river. by eapply run_anchor_le.
  - intros rec recs d river line -> Hd Hnd Hin. rewrite run_single in Hrun'.
    apply process_group_Ok in Hrun' as (rec' & recs' & d' & [= <- <-] & Hd' & ->).
    rewrite Hd in Hd'. injection Hd' as <-.
    unfold anchor. simpl.
    destruct (Qc_leb rain_threshold (sum (rain_24h d))); simpl; [|done].
    unfold update_anchors. rewrite (fold_anchor_lookup _ _ _ _ line) by done.
    by destruct (Qc_ltb (distance line (point_of (Location_of rec))) river_margin).
Qed.

(** C10. River proximity is strict.  For a location whose distance to a
    river equals [river_margin], an iteration of the first pass for that
    location leaves the river's anchor as it was, and the second pass
    never reports the location for that river; whenever an iteration
    changes the anchor or the second pass reports the pair, the distance
    is strictly below the margin. *)
Theorem river_proximity_is_strict lc river line :
  NoDup RIVERS.*1 → (river, line) ∈ RIVERS →
  (distance line (point_of lc) = river_margin →
   (∀ st rec recs st',
      process_group st (rec :: recs) = Ok st' → Location_of rec = lc →
      river_flood st' !! river = river_flood st !! river) ∧
   (∀ st, (lc, river) ∉ river_flood_report st)) ∧
  (∀ st rec recs st',
     process_group st (rec :: recs) = Ok st' → Location_of rec = lc →
     river_flood st' !! river ≠ river_flood st !! river →
     (distance line (point_of lc) < river_margin)%Qc) ∧
  (∀ st, (lc, river) ∈ river_flood_report st →
         (distance line (point_of lc) < river_margin)%Qc).
Proof.
  intros Hnd Hin.
  assert (∀ st rec recs st',
    process_group st (rec :: recs) = Ok st' → Location_of rec = lc →
    river_flood st' !! river =
      if Qc_leb rain_threshold (sum (rain_24h
           (default (mkData lc 0 0 []) (dict_get lc (data st')))))
         && Qc_ltb (distance line (point_of lc)) river_margin
      then Some (fmin (anchor st river) (Fin (project line (point_of lc))))
      else river_flood st !! river) as Hstep.
  { intros st rec recs st' (rec' & recs' & d & [= <- <-] & Hd & ->)%process_group_Ok <-.
    simpl. rewrite dict_get_set_eq. simpl.
    destruct (Qc_leb rain_threshold (sum (rain_24h d))); simpl; [|done].
    unfold update_anchors. by rewrite (fold_anchor_lookup _ _ _ _ line). }
  assert (∀ st, (lc, river) ∈ river_flood_report st →
                (distance line (point_of lc) < river_margin)%Qc) as Hpass2.
  { intros st (_ & _ & line' & Hin' & Hnear & _)%elem_of_river_flood_report.
    by rewrite <-(NoDup_fst_unique _ _ _ _ Hnd Hin' Hin). }
  split_and!.
  - intros Heq. split.
    + intros st rec recs st' Hok Hlc. rewrite (Hstep _ _ _ _ Hok Hlc).
      assert (Qc_ltb (distance line (point_of lc)) river_margin = false) as ->.
      { apply not_true_iff_false. rewrite Qc_ltb_lt, Heq.
        by intros ?%Qclt_not_eq. }
      by rewrite andb_false_r.
    + intros st Hrep%Hpass2. rewrite Heq in Hrep.
      by apply Qclt_not_eq in Hrep.
  - intros st rec recs st' Hok Hlc Hne. rewrite (Hstep _ _ _ _ Hok Hlc) in Hne.
    destruct (Qc_ltb (distance line (point_of lc)) river_margin) eqn:E.
    + by apply Qc_ltb_lt.
    + by rewrite andb_false_r in Hne.
  - done.
Qed.

(** *** The inputs that the loop accepts *)

(** A run that succeeds has seen one group for each place and time. *)
Lemma run_one_group_per_hour groups st g1 g2 h1 h2 :
  run init groups = Ok st → g1 ∈ groups → g2 ∈ groups →
  head g1 = Some h1 → head g2 = Some h2 →
  Location_of h1 = Location_of h2 → dt h1 = dt h2 → h1 = h2.
Proof.
  intros [Hdata _]%run_inv Hg1 Hg2 Hh1 Hh2 Hloc Hdt.
  specialize (Hdata (Location_of h1)).
  assert (h1 ∈ obs_of (Location_of h1) groups) as Hin1.
  { apply list_elem_of_filter. split; [done|].
    apply list_elem_of_omap. by exists g1. }
  assert (h2 ∈ obs_of (Location_of h1) groups) as Hin2.
  { apply list_elem_of_filter. split; [done|].
    apply list_elem_of_omap. by exists g2. }
  destruct (dict_get (Location_of h1) (data st)) as [d|].
  - destruct Hdata as (_ & _ & _ & _ & Hhour).
    apply list_elem_of_lookup in Hin1 as [i1 Hi1].
    apply list_elem_of_lookup in Hin2 as [i2 Hi2].
    pose proof (Hhour _ _ Hi1). pose proof (Hhour _ _ Hi2).
    assert (i1 = i2) as -> by lia. congruence.
  - rewrite Hdata in Hin1. by apply elem_of_nil in Hin1.
Qed.

Lemma main_loop_one_key records st x y :
  main_loop records = Ok st → x ∈ records → y ∈ records →
  base_key x = base_key y → group_key x = group_key y.
Proof.
  intros Hrun (g1 & h1 & Hg1 & _ & Hh1 & Hk1)%groups_of_elem
    (g2 & h2 & Hg2 & _ & Hh2 & Hk2)%groups_of_elem Hbase.
  rewrite <-Hk1, <-Hk2. f_equal.
  apply (run_one_group_per_hour (groups_of records) st g1 g2); [done..| |].
  - rewrite (group_key_Location _ _ Hk1), (group_key_Location _ _ Hk2).
    unfold Location_of. by injection Hbase as -> _ -> ->.
  - assert (dt h1 = dt x) as -> by by injection Hk1.
    assert (dt h2 = dt y) as -> by by injection Hk2.
    by injection Hbase.
Qed.


Lemma key_le_dt a b :
  key_le a b → Location_of a = Location_of b → base_key a ≠ base_key b →
  dt a < dt b.
Proof.
  unfold key_le, key_ltb, Location_of, base_key. intros Hle [= Hc Hla Hlo] Hne.
  rewrite decide_False in Hle by (intros ?; congruence).
  destruct (decide (dt b ≠ dt a)) as [Hdt|Hdt%dec_stable].
  - apply Z.ltb_ge in Hle. lia.
  - destruct Hne. congruence.
Qed.

Lemma heads_records records a :
  a ∈ omap head (groups_of records) → a ∈ records.
Proof.
  intros Ha. rewrite <-(sort_perm records).
  eapply elem_of_sublist; [done|]. apply heads_sublist.
Qed.

Lemma obs_of_records lc records a :
  a ∈ obs_of lc (groups_of records) → a ∈ records ∧ Location_of a = lc.
Proof.
  intros [Hloc Ha]%list_elem_of_filter. split; [|done]. by apply heads_records.
Qed.

Lemma records_obs_of records x :
  x ∈ records →
  ∃ h, h ∈ obs_of (Location_of x) (groups_of records) ∧
       group_key h = group_key x.
Proof.
  intros (g & h & Hg & _ & Hh & Hkey)%groups_of_elem. exists h.
  split; [|done]. apply list_elem_of_filter. split.
  - by apply group_key_Location.
  - apply list_elem_of_omap. by exists g.
Qed.

(** Under consistency the groups of one location come in the order of their
    timestamps, each timestamp once. *)
Lemma obs_of_dt_sorted records lc :
  consistent records →
  StronglySorted (λ a b, dt a < dt b) (obs_of lc (groups_of records)).
Proof.
  intros Hcons. set (H := omap head (groups_of records)).
  assert (StronglySorted key_le H) as Hsorted.
  { eapply StronglySorted_sublist; [apply heads_sublist|apply sort_sorted]. }
  assert (∀ i j a b, (i < j)%nat → H !! i = Some a → H !! j = Some b →
                     base_key a ≠ base_key b) as Hbase.
  { intros i j a b Hij Hi Hj Heq.
    destruct (lookup_lt_is_Some_2 H (S i)) as [c Hc].
    { apply lookup_lt_Some in Hj. lia. }
    assert (key_le a c) as Hac.
    { apply (StronglySorted_lookup _ H i (S i)); [done|lia|done..]. }
    assert (key_le c b) as Hcb.
    { destruct (decide (S i = j)) as [<-|Hne].
      - rewrite Hc in Hj. by injection Hj as <-.
      - apply (StronglySorted_lookup _ H (S i) j); [done|lia|done..]. }
    pose proof (key_le_squeeze a c b Hac Hcb Heq) as Hca.
    apply (heads_adjacent group_key (sort records) i a c); [done..|].
    unfold group_key, base_key in *.
    rewrite (Hcons a c); [congruence|..|done];
      apply heads_records; by eapply list_elem_of_lookup_2. }
  assert (StronglySorted (λ a b, key_le a b ∧ base_key a ≠ base_key b) H)
    as Hboth.
  { apply StronglySorted_of_lookup. intros i j a b Hij Hi Hj. split.
    - by apply (StronglySorted_lookup _ H i j).
    - by apply (Hbase i j). }
  apply StronglySorted_of_lookup. intros i j a b Hij Hi Hj.
  assert (key_le a b ∧ base_key a ≠ base_key b) as [Hle Hne].
  { apply (StronglySorted_lookup
             (λ a b, key_le a b ∧ base_key a ≠ base_key b)
             (obs_of lc (groups_of records)) i j); [|done..].
    eapply StronglySorted_sublist; [apply sublist_filter; apply _|done]. }
  apply list_elem_of_lookup_2, list_elem_of_filter in Hi as [Hi _].
  apply list_elem_of_lookup_2, list_elem_of_filter in Hj as [Hj _].
  apply key_le_dt; [done|congruence|done].
Qed.

Lemma hourly_input_contiguous records :
  hourly_input records → contiguous (groups_of records).
Proof.
  intros [Hcons Hgap]. split; [apply groupby_group_nonempty|].
  intros lc i r r' Hi Hi'.
  pose proof (obs_of_dt_sorted records lc Hcons) as Hsorted.
  pose proof (list_elem_of_lookup_2 _ _ _ Hi) as [Hr Hlc]%obs_of_records.
  pose proof (list_elem_of_lookup_2 _ _ _ Hi') as [Hr' Hlc']%obs_of_records.
  assert (dt r < dt r') as Hlt.
  { apply (StronglySorted_lookup _ _ i (S i) _ _ Hsorted); [lia|done..]. }
  destruct (Hgap r r' Hr Hr') as (Hhour & z & Hz & Hzloc & Hzdt);
    [congruence|done|].
  destruct (records_obs_of records z Hz) as (h & Hh & Hkey).
  rewrite Hzloc, Hlc in Hh.
  assert (dt h = dt r + 3600) as Hhdt by (rewrite <-Hzdt; by injection Hkey).
  apply list_elem_of_lookup in Hh as [c Hc].
  destruct (decide (c = S i)) as [->|Hne].
  { rewrite Hi' in Hc. by injection Hc as <-. }
  destruct (decide (c = i)) as [->|Hne'].
  { rewrite Hi in Hc. injection Hc as <-. lia. }
  destruct (decide (c < i)%nat).
  - pose proof (StronglySorted_lookup _ _ c i _ _ Hsorted ltac:(lia) Hc Hi)
      as Hbefore. simpl in Hbefore. lia.
  - pose proof (StronglySorted_lookup _ _ (S i) c _ _ Hsorted ltac:(lia) Hi' Hc)
      as Hafter. simpl in Hafter. lia.
Qed.

Lemma contiguous_hourly_input records :
  contiguous (groups_of records) → hourly_input records.
Proof.
  intros [st Hrun]%contiguous_run. split.
  - intros x y Hx Hy Hbase.
    pose proof (main_loop_one_key _ _ _ _ Hrun Hx Hy Hbase) as Hkey.
    by injection Hkey.
  - intros x y Hx Hy Hloc Hlt.
    destruct (records_obs_of records x Hx) as (hx & Hhx & Hkx).
    destruct (records_obs_of records y Hy) as (hy & Hhy & Hky).
    rewrite <-Hloc in Hhy.
    assert (dt hx = dt x) as Hdx by by injection Hkx.
    assert (dt hy = dt y) as Hdy by by injection Hky.
    apply run_inv in Hrun as [Hdata _]. specialize (Hdata (Location_of x)).
    destruct (dict_get (Location_of x) (data st)) as [d|]; cycle 1.
    { rewrite Hdata in Hhx. by apply elem_of_nil in Hhx. }
    destruct Hdata as (_ & _ & _ & _ & Hhour).
    apply list_elem_of_lookup in Hhx as [i Hi].
    apply list_elem_of_lookup in Hhy as [j Hj].
    pose proof (Hhour _ _ Hi) as Hdi. pose proof (Hhour _ _ Hj) as Hdj.
    pose proof (lookup_lt_Some _ _ _ Hj) as Hjlen.
    destruct (lookup_lt_is_Some_2 (obs_of (Location_of x) (groups_of records)) (S i))
      as [z Hz]; [lia|].
    pose proof (Hhour _ _ Hz) as Hdz.
    split; [lia|]. exists z.
    apply list_elem_of_lookup_2, obs_of_records in Hz as [Hz Hzloc].
    split_and!; [done..|lia].
Qed.

(** The loop passes the continuity check of lines 163-169 at every group
    exactly on the hourly inputs. *)
Theorem main_accepts_hourly_inputs records :
  hourly_input records ↔ ∃ st, main_loop records = Ok st.
Proof.
  split.
  - intros Hin. by apply contiguous_run, hourly_input_contiguous.
  - intros [st Hrun]. by eapply contiguous_hourly_input, run_Ok_contiguous.
Qed.

(** *** Claims about whole runs *)

(** C1. On an hourly input (every location observed hour by hour, one
    rain value for each place and time) the loop runs to its end, and after
    all groups are processed a location of the input is
    reported as river-flooded via river [r] if and only if it is not in
    the rain-flooded set, its point lies within [river_margin] of [r] and
    its position along [r] is at or after the anchor of [r]; a position
    equal to the anchor is reported and a position before it is not; a
    river without a recorded anchor floods no location; a rain-flooded
    location is in no river-flood pair. *)
Theorem river_flooded_iff records rec river line :
  hourly_input records → rec ∈ records →
  NoDup RIVERS.*1 → (river, line) ∈ RIVERS →
  let lc := Location_of rec in
  let p := point_of lc in
  ∃ st,
  main_loop records = Ok st ∧
  ((lc, river) ∈ river_flood_report st ↔
   (lc ∉ rain_flood st) ∧
   (distance line p < river_margin)%Qc ∧
   xle (anchor st river) (Fin (project line p))) ∧
  (lc ∉ rain_flood st → (distance line p < river_margin)%Qc →
   anchor st river = Fin (project line p) →
   (lc, river) ∈ river_flood_report st) ∧
  (xlt (Fin (project line p)) (anchor st river) →
   (lc, river) ∉ river_flood_report st) ∧
  (river_flood st !! river = None →
   ∀ lc', (lc', river) ∉ river_flood_report st) ∧
  (lc ∈ rain_flood st → ∀ river', (lc, river') ∉ river_flood_report st).
Proof.
  intros [st Hrun]%main_accepts_hourly_inputs Hrec Hnd Hin lc p.
  exists st. split; [done|].
  assert ((lc, river) ∈ river_flood_report st ↔
          (lc ∉ rain_flood st) ∧ (distance line p < river_margin)%Qc ∧
          xle (anchor st river) (Fin (project line p))) as Hiff.
  { rewrite elem_of_river_flood_report. split.
    - intros (_ & Hdry & line' & Hin' & Hnear & Hdown).
      by rewrite <-(NoDup_fst_unique _ _ _ _ Hnd Hin' Hin).
    - intros (Hdry & Hnear & Hdown). split_and!; [|done|by exists line].
      by eapply main_loop_tracks. }
  split_and!.
  - done.
  - intros Hdry Hnear Heq. apply Hiff. split_and!; [done..|].
    rewrite Heq. apply xle_refl.
  - intros Hlt (_ & _ & Hle)%Hiff. by eapply xlt_not_xle.
  - intros Hnone lc' (_ & _ & line' & _ & _ & Hle)%elem_of_river_flood_report.
    unfold anchor in Hle. rewrite Hnone in Hle. inversion Hle.
  - by intros Hwet river' (_ & Hdry & _)%elem_of_river_flood_report.
Qed.

Lemma update_window_dt_to data rec d :
  update_window data rec = Ok d → dt_to d = dt rec.
Proof.
  intros (d0 & Hd0 & ->)%update_window_Ok. simpl.
  destruct (dict_get (Location_of rec) data); [by destruct Hd0 as [_ ->]|by subst].
Qed.

(** C2. For a contiguous hourly stream the loop accepts every group, and
    the rolling sum it computes for the observation at time [t] (the sum
    of the window [d] it stores) is the sum of the hourly rain values of
    that location at the timestamps [t-23h..t], with 0 for an absent
    [rain_1h]: these are the last 24 observations of the location, one an
    hour up to [t], or all of them while there are fewer, so older values
    have left the window first in, first out. *)
Theorem rolling_sum_is_last_24_hours groups rec recs :
  contiguous (groups ++ [rec :: recs]) →
  ∃ st d st',
    run init groups = Ok st ∧
    update_window (data st) rec = Ok d ∧
    process_group st (rec :: recs) = Ok st' ∧
    dict_get (Location_of rec) (data st') = Some d ∧
    let h := obs_of (Location_of rec) (groups ++ [rec :: recs]) in
    let recent := filter (λ r, dt rec - 23 * 3600 ≤ dt r ≤ dt rec) h in
    sum (rain_24h d) = sum (rain_of <$> recent) ∧
    rain_24h d = rain_of <$> recent ∧
    recent = lastn 24 h ∧
    (length (rain_24h d) ≤ 24)%nat ∧
    (∀ (i : nat) r,
       recent !! i = Some r →
       dt r = dt rec - 3600 * (Z.of_nat (length recent) - 1 - Z.of_nat i)).
Proof.
  intros Hc.
  destruct (contiguous_run _ (contiguous_app_l _ _ Hc)) as [st Hrun].
  destruct (contiguous_snoc _ _ _ _ Hc Hrun) as [d Hd].
  destruct (process_group st (rec :: recs)) as [st'|] eqn:Hstep; cycle 1.
  { unfold process_group in Hstep. by rewrite Hd in Hstep. }
  exists st, d, st'. split_and!; [done..| |].
  - apply process_group_Ok in Hstep as (? & ? & d' & [= <- <-] & Hd' & ->).
    simpl. rewrite dict_get_set_eq. congruence.
  - assert (run init (groups ++ [rec :: recs]) = Ok st') as Hrun'.
    { by rewrite run_snoc, Hrun. }
    apply run_inv in Hrun' as [Hdata _].
    specialize (Hdata (Location_of rec)).
    assert (dict_get (Location_of rec) (data st') = Some d) as Hget.
    { apply process_group_Ok in Hstep as (? & ? & d' & [= <- <-] & Hd' & ->).
      simpl. rewrite dict_get_set_eq. congruence. }
    rewrite Hget in Hdata. cbv zeta.
    rewrite <-(update_window_dt_to _ _ _ Hd).
    rewrite (window_inv_filter _ _ _ Hdata).
    destruct Hdata as (_ & _ & Hrain & _ & Hhour).
    rewrite <-lastn_fmap, <-Hrain. split_and!; [done..| |].
    + rewrite Hrain, lastn_length. lia.
    + intros i r Hi. rewrite lastn_length. unfold lastn in Hi.
      rewrite lookup_drop in Hi. pose proof (lookup_lt_Some _ _ _ Hi).
      apply Hhour in Hi. lia.
Qed.

Lemma process_group_rain_flood st g st' lc :
  process_group st g = Ok st' →
  (lc ∈ rain_flood st' ↔
   lc ∈ rain_flood st ∨
   ∃ rec recs d, g = rec :: recs ∧ Location_of rec = lc ∧
                 update_window (data st) rec = Ok d ∧
                 (rain_threshold ≤ sum (rain_24h d))%Qc).
Proof.
  intros (rec & recs & d & -> & Hd & ->)%process_group_Ok. simpl.
  destruct (Qc_leb rain_threshold (sum (rain_24h d))) eqn:E.
  - apply Qc_leb_le in E. rewrite elem_of_union, elem_of_singleton. split.
    + intros [->|Hin]; [|by left]. right. by exists rec, recs, d.
    + intros [Hin|(? & ? & ? & [= <- <-] & <- & _)]; [by right|by left].
  - split; [by left|]. intros [Hin|(? & ? & d' & [= <- <-] & _ & Hd' & Hle)]; [done|].
    rewrite Hd in Hd'. injection Hd' as <-.
    apply Qc_leb_le in Hle. congruence.
Qed.

Lemma run_rain_flood groups st lc :
  run init groups = Ok st →
  (lc ∈ rain_flood st ↔
   ∃ groups1 rec recs groups2 st1 d,
     groups = groups1 ++ (rec :: recs) :: groups2 ∧
     Location_of rec = lc ∧
     run init groups1 = Ok st1 ∧
     update_window (data st1) rec = Ok d ∧
     (rain_threshold ≤ sum (rain_24h d))%Qc).
Proof.
  revert st. induction groups as [|g groups IH] using rev_ind; intros st.
  - intros [= <-]. simpl. split; [by intros ?%not_elem_of_empty|].
    intros (groups1 & ? & ? & ? & ? & ? & Heq & _). by destruct groups1.
  - rewrite run_snoc. destruct (run init groups) as [st0|] eqn:Hrun; simpl; [|done].
    intros Hstep. rewrite (process_group_rain_flood _ _ _ _ Hstep).
    rewrite (IH st0 eq_refl). split.
    + intros [(groups1 & rec & recs & groups2 & st1 & d & -> & Hrest)
             |(rec & recs & d & -> & Hlc & Hd & Hle)].
      * exists groups1, rec, recs, (groups2 ++ [g]), st1, d.
        split; [|done]. by rewrite <-app_assoc.
      * by exists groups, rec, recs, [], st0, d.
    + intros (groups1 & rec & recs & groups2 & st1 & d & Heq & Hlc & Hrun1 & Hd & Hle).
      destruct groups2 as [|x groups2 _] using rev_ind.
      * apply app_inj_tail in Heq as [-> ->]. right.
        rewrite Hrun in Hrun1. injection Hrun1 as <-. by exists rec, recs, d.
      * rewrite app_comm_cons, app_assoc in Heq.
        apply app_inj_tail in Heq as [-> ->]. left.
        by exists groups1, rec, recs, groups2, st1, d.
Qed.

(** C3. After the loop has run over a contiguous hourly stream, a
    location is in the rain-flooded set exactly when, for some
    observation of that location, the rolling sum computed for it is at or
    above [rain_threshold]; equivalently, when the sum of the last 24
    values of some non-empty prefix of its hourly rains reaches the
    threshold.  A rolling sum equal to the threshold is enough, and a
    location whose rolling sum stays below the threshold is not in the
    set. *)
Theorem rain_flooded_iff_threshold_reached groups lc :
  contiguous groups →
  ∃ st,
  run init groups = Ok st ∧
  (lc ∈ rain_flood st ↔
   ∃ groups1 rec recs groups2 st1 d,
     groups = groups1 ++ (rec :: recs) :: groups2 ∧
     Location_of rec = lc ∧
     run init groups1 = Ok st1 ∧
     update_window (data st1) rec = Ok d ∧
     (rain_threshold ≤ sum (rain_24h d))%Qc) ∧
  (lc ∈ rain_flood st ↔
   ∃ k, (0 < k ≤ length (obs_of lc groups))%nat ∧
        (rain_threshold ≤ rolling (rain_of <$> take k (obs_of lc groups)))%Qc) ∧
  (∀ k, (0 < k ≤ length (obs_of lc groups))%nat →
        rolling (rain_of <$> take k (obs_of lc groups)) = rain_threshold →
        lc ∈ rain_flood st) ∧
  ((∀ k, (0 < k ≤ length (obs_of lc groups))%nat →
         (rolling (rain_of <$> take k (obs_of lc groups)) < rain_threshold)%Qc) →
   lc ∉ rain_flood st).
Proof.
  intros [st Hrun]%contiguous_run. exists st.
  pose proof (run_inv _ _ Hrun) as [_ Hrain].
  specialize (Hrain lc). unfold reached in Hrain. split_and!.
  - done.
  - by apply run_rain_flood.
  - done.
  - intros k Hk Heq. apply Hrain. exists k. split; [done|].
    rewrite Heq. apply Qcle_refl.
  - intros Hbelow (k & Hk & Hle)%Hrain.
    by eapply Qclt_not_le; [apply (Hbelow k)|].
Qed.

(** Three observations of one location at the hours [N-1], [N] and [N+2]. *)
Lemma third_observation_jump a1 a2 a3 g1 g2 g3 :
  Location_of a2 = Location_of a1 → Location_of a3 = Location_of a1 →
  dt a2 = dt a1 + 3600 → dt a3 = dt a2 + 7200 →
  run init [a1 :: g1; a2 :: g2; a3 :: g3] =
    Raise (ContinuityError (Location_of a3) (dt a2 + 3600) a3).
Proof.
  intros Hloc2 Hloc3 Hdt2 Hdt3.
  unfold run, process_group, update_window. simpl.
  rewrite Hloc2, decide_True by done. simpl.
  rewrite bool_decide_eq_false_2 by (by intros []).
  rewrite bool_decide_eq_true_2 by done. simpl.
  rewrite decide_True by done. simpl.
  rewrite decide_True by done. simpl.
  rewrite bool_decide_eq_false_2 by (rewrite Hloc3; by intros []).
  by rewrite bool_decide_eq_false_2 by lia.
Qed.

(** C4. Once a location has an open window, a new group for that location
    whose timestamp is not [window_end + 3600] makes the iteration raise
    the continuity exception, and with it the whole run, whatever follows;
    the window end is the timestamp of the location's latest observation.
    In particular a run of three observations of one location at the hours
    [N-1], [N] and [N+2] raises at the third. *)
Theorem discontinuity_raises groups st rec recs d :
  run init groups = Ok st →
  dict_get (Location_of rec) (data st) = Some d →
  dt rec ≠ dt_to d + 3600 →
  let e := ContinuityError (Location_of rec) (dt_to d + 3600) rec in
  process_group st (rec :: recs) = Raise e ∧
  (∀ rest, run init (groups ++ (rec :: recs) :: rest) = Raise e) ∧
  (∃ r, last (obs_of (Location_of rec) groups) = Some r ∧ dt r = dt_to d) ∧
  (∀ a1 a2 a3 g1 g2 g3,
     Location_of a2 = Location_of a1 → Location_of a3 = Location_of a1 →
     dt a2 = dt a1 + 3600 → dt a3 = dt a2 + 7200 →
     run init [a1 :: g1; a2 :: g2; a3 :: g3] =
       Raise (ContinuityError (Location_of a3) (dt a2 + 3600) a3)).
Proof.
  intros Hrun Hget Hdt e.
  pose proof (run_inv _ _ Hrun) as [Hdata _].
  specialize (Hdata (Location_of rec)). rewrite Hget in Hdata.
  assert (process_group st (rec :: recs) = Raise e) as Hstep.
  { unfold process_group, update_window. rewrite Hget.
    destruct Hdata as [Hloc _].
    rewrite bool_decide_eq_false_2 by (by intros []).
    by rewrite bool_decide_eq_false_2 by done. }
  split_and!.
  - done.
  - intros rest. rewrite run_app, Hrun. unfold bind at 1.
    by rewrite run_cons, Hstep.
  - by eapply window_inv_last.
  - apply third_observation_jump.
Qed.

(** C8 (amended). After the loop has run over a contiguous hourly stream
    every location it has observed has a window; the window keeps at most
    24 values, the last
    24 hourly rains of its location (the oldest leave first); a window is
    opened with [dt_from = timestamp - 3600] and [dt_to = timestamp]; and
    as long as the location has had at most 24 observations (nothing was
    evicted yet) [dt_to - dt_from = 3600 * len(rain_24h)]. *)
Theorem window_span groups lc :
  contiguous groups → obs_of lc groups ≠ [] →
  let h := obs_of lc groups in
  ∃ st d,
  run init groups = Ok st ∧ dict_get lc (data st) = Some d ∧
  length (rain_24h d) = (length h `min` 24)%nat ∧
  (1 ≤ length (rain_24h d) ≤ 24)%nat ∧
  rain_24h d = lastn 24 (rain_of <$> h) ∧
  (∀ r, h = [r] → dt_from d = dt r - 3600 ∧ dt_to d = dt r) ∧
  ((length h ≤ 24)%nat →
   dt_to d - dt_from d = 3600 * Z.of_nat (length (rain_24h d))).
Proof.
  intros [st Hrun]%contiguous_run Hobs h.
  pose proof (run_inv _ _ Hrun) as [Hdata _]. specialize (Hdata lc).
  destruct (dict_get lc (data st)) as [d|] eqn:Hget; [|done].
  exists st, d. split; [done|]. split; [done|]. fold h in Hdata.
  destruct Hdata as (_ & Hne & Hrain & Hfrom & Hdt).
  assert (length (rain_24h d) = (length h `min` 24)%nat) as Hlen.
  { by rewrite Hrain, lastn_length, length_fmap. }
  assert (length h ≠ 0%nat) by by destruct h.
  split_and!; [done|lia|lia|done|..].
  - intros r Hr. rewrite Hr in Hfrom, Hdt. simpl in *.
    specialize (Hdt 0%nat r eq_refl). lia.
  - intros Hle. rewrite Hlen. lia.
Qed.

(** *** Adding records that differ in the weather only *)





Lemma group_key_base x y : group_key x = group_key y → base_key x = base_key y.
Proof. unfold group_key, base_key. by intros [= -> -> -> -> _]. Qed.




(** *** Claims about grouping *)

(** C7 (amended). The records are sorted by the record with its rain
    dropped, i.e. lexicographically by (name, timestamp, latitude,
    longitude, weather description), and the loop sees the sorted list cut
    into maximal runs of consecutive records that agree on every field but
    the weather description: the runs concatenate to the sorted list, which
    is a permutation of the input; a run is never empty and its records
    share the key (name, timestamp, latitude, longitude, rain); two
    neighbouring runs have different keys. *)
Theorem groups_are_runs_of_equal_keys records :
  let sorted := sort records in
  let runs := groupby group_key sorted in
  groups_of records = runs.*2 ∧
  sorted ≡ₚ records ∧
  StronglySorted key_le sorted ∧
  (∀ a b, key_ltb a b = lex base_ltb String.ltb (sort_key a) (sort_key b)) ∧
  mjoin runs.*2 = sorted ∧
  Forall (λ kg, kg.2 ≠ [] ∧ Forall (λ x, group_key x = kg.1) kg.2) runs ∧
  (∀ i kg1 kg2,
     runs !! i = Some kg1 → runs !! S i = Some kg2 → kg1.1 ≠ kg2.1).
Proof.
  intros sorted runs. split_and!.
  - done.
  - apply sort_perm.
  - apply sort_sorted.
  - apply key_ltb_lex.
  - apply groupby_concat.
  - apply Forall_and. split; [apply groupby_nonempty|apply groupby_keys].
  - apply groupby_adjacent.
Qed.



End facts.


(** ** Runs on the sample inputs *)

(** The hour of rain of [flood_story]: ["A"] is flooded by rain and sets the
    anchor of the river at 1000; ["B"], downstream, is flooded by the river;
    ["C"], upstream, is not; ["D"], exactly [river_margin] away, is not
    either. *)
Example flood_story_main :
  main (env := sample_env) flood_story =
    Ok ([mkSkillReport (Location_of (obs_A 0 None "")) ADVANCED_SKILLS 0;
         mkSkillReport (Location_of (obs_B 0 None "")) ADVANCED_SKILLS 0;
         mkSkillReport (Location_of (obs_C 0 None "")) ADVANCED_SKILLS 0;
         mkSkillReport (Location_of (obs_D 0 None "")) ADVANCED_SKILLS 0],
        {[Location_of (obs_A 0 None "")]},
        [(Location_of (obs_B 0 None ""), "Saar")]).
Proof. by vm_compute. Qed.

Lemma river_flooded_iff_witness :
  let st := final_state (env := sample_env) flood_story in
  hourly_input flood_story ∧
  main_loop (env := sample_env) flood_story = Ok st ∧
  (Location_of (obs_B 0 None ""), "Saar") ∈ river_flood_report (env := sample_env) st ∧
  (Location_of (obs_A 0 None ""), "Saar") ∉ river_flood_report (env := sample_env) st.
Proof.
  intros st.
  assert (main_loop (env := sample_env) flood_story = Ok st) as Hrun
    by (vm_compute; reflexivity).
  assert (hourly_input flood_story) as Hc
    by (apply (main_accepts_hourly_inputs (env := sample_env)); by exists st).
  assert (NoDup (RIVERS (Env := sample_env)).*1) as Hnd by by_eval.
  assert (("Saar", tt) ∈ RIVERS (Env := sample_env)) as Hin by by_eval.
  assert (obs_B 0 (Some (q 20)) "Rain" ∈ flood_story) as HB by by_eval.
  assert (obs_A 0 (Some (q 60)) "Rain" ∈ flood_story) as HA by by_eval.
  destruct (river_flooded_iff (env := sample_env) flood_story
              _ "Saar" tt Hc HB Hnd Hin) as (stB & HrunB & HiffB & _).
  destruct (river_flooded_iff (env := sample_env) flood_story
              _ "Saar" tt Hc HA Hnd Hin) as (stA & HrunA & _ & _ & _ & _ & HwetA).
  rewrite Hrun in HrunB, HrunA. injection HrunB as <-. injection HrunA as <-.
  split_and!; [done..| |].
  - apply HiffB. split_and!; [by_eval|by_eval|].
    apply xleb_xle. vm_compute. reflexivity.
  - apply HwetA. by_eval.
Defined.

Lemma rolling_sum_is_last_24_hours_witness :
  let rec := obs_A (3600 * 25) (Some (q 25)) "Rain" in
  groups_of (mjoin (rainy_hours 26)) = rainy_hours 25 ++ [[rec]] ∧
  contiguous (rainy_hours 25 ++ [[rec]]) ∧
  ∃ st d,
    run (env := sample_env) init (rainy_hours 25) = Ok st ∧
    update_window (data st) rec = Ok d ∧
    length (rain_24h d) = 24%nat ∧
    sum (rain_24h d) = q 324.
Proof.
  intros rec.
  assert (contiguous (rainy_hours 25 ++ [[rec]])) as Hc.
  { eapply (run_Ok_contiguous (env := sample_env)). vm_compute. reflexivity. }
  split; [by vm_compute|]. split; [done|].
  destruct (rolling_sum_is_last_24_hours (env := sample_env) _ _ _ Hc)
    as (st & d & st' & Hrun & Hd & _ & _ & Hsum & Hrain & _ & _ & _).
  exists st, d. split_and!; [done..| |].
  - rewrite Hrain. by_eval.
  - rewrite Hsum. by_eval.
Defined.

Lemma rain_flooded_iff_threshold_reached_witness :
  let st := final_state (env := sample_env) flood_story in
  contiguous (groups_of flood_story) ∧
  run (env := sample_env) init (groups_of flood_story) = Ok st ∧
  Location_of (obs_A 0 None "") ∈ rain_flood st ∧
  Location_of (obs_B 0 None "") ∉ rain_flood st.
Proof.
  intros st.
  assert (run (env := sample_env) init (groups_of flood_story) = Ok st) as Hrun
    by (vm_compute; reflexivity).
  assert (contiguous (groups_of flood_story)) as Hc
    by (by eapply (run_Ok_contiguous (env := sample_env))).
  destruct (rain_flooded_iff_threshold_reached (env := sample_env) _
              (Location_of (obs_A 0 None "")) Hc) as (stA & HrunA & _ & Hiff & _).
  destruct (rain_flooded_iff_threshold_reached (env := sample_env) _
              (Location_of (obs_B 0 None "")) Hc)
    as (stB & HrunB & _ & _ & _ & Hbelow).
  rewrite Hrun in HrunA, HrunB. injection HrunA as <-. injection HrunB as <-.
  split_and!; [done..| |].
  - apply Hiff. exists 1%nat. split; by_eval.
  - apply Hbelow. intros k Hk.
    assert (k = 1%nat) as -> by (vm_compute in Hk; lia). by_eval.
Defined.

(** The third observation of ["A"] jumps from hour 1 to hour 3. *)
Lemma discontinuity_raises_witness :
  let a0 := obs_A 0 None "Fog" in
  let a1 := obs_A 3600 None "Fog" in
  let a3 := obs_A 10800 None "Fog" in
  groups_of [a0; a1; a3] = [[a0]; [a1]; [a3]] ∧
  main_loop (env := sample_env) [a0; a1; a3] =
    Raise (ContinuityError (Location_of a3) 7200 a3).
Proof.
  intros a0 a1 a3.
  assert (groups_of [a0; a1; a3] = [[a0]; [a1]; [a3]]) as Hgroups
    by (vm_compute; reflexivity).
  split; [done|]. unfold main_loop. rewrite Hgroups.
  assert (run (env := sample_env) init [[a0]; [a1]] =
            Ok (final_state (env := sample_env) [a0; a1])) as Hrun
    by (vm_compute; reflexivity).
  assert (dict_get (Location_of a3)
            (data (final_state (env := sample_env) [a0; a1])) =
          Some (mkData (Location_of a3) (-3600) 3600 [q 0; q 0])) as Hget
    by (vm_compute; reflexivity).
  destruct (discontinuity_raises (env := sample_env) _ _ a3 [] _ Hrun Hget)
    as (_ & Hrest & _ & _); [by_eval|].
  apply (Hrest []).
Defined.

Lemma anchor_never_increases_witness :
  let st := final_state (env := sample_env) flood_story in
  contiguous ([] ++ groups_of flood_story) ∧
  run (env := sample_env) init (groups_of flood_story) = Ok st ∧
  anchor init "Saar" = PosInf ∧
  anchor st "Saar" = Fin (q 1000) ∧
  xle (anchor st "Saar") (anchor init "Saar").
Proof.
  intros st.
  assert (run (env := sample_env) init (groups_of flood_story) = Ok st) as Hrun
    by (vm_compute; reflexivity).
  assert (contiguous ([] ++ groups_of flood_story)) as Hc
    by (by eapply (run_Ok_contiguous (env := sample_env))).
  destruct (anchor_never_increases (env := sample_env) _ _ Hc)
    as (st1 & st2 & Hrun1 & _ & Hrun2 & Hle & _).
  injection Hrun1 as <-. simpl app in Hrun2.
  rewrite Hrun in Hrun2. injection Hrun2 as <-.
  split_and!; [done|done|reflexivity|by vm_compute|apply Hle].
Defined.

Lemma window_span_witness :
  let st := final_state (env := sample_env) (dry_hours 3) in
  let d := mkData (Location_of (obs_A 0 None "")) (-3600) 7200 [q 0; q 0; q 0] in
  contiguous (groups_of (dry_hours 3)) ∧
  run (env := sample_env) init (groups_of (dry_hours 3)) = Ok st ∧
  dict_get (Location_of (obs_A 0 None "")) (data st) = Some d ∧
  dt_to d - dt_from d = 3600 * 3.
Proof.
  intros st d.
  assert (run (env := sample_env) init (groups_of (dry_hours 3)) = Ok st) as Hrun
    by (vm_compute; reflexivity).
  assert (contiguous (groups_of (dry_hours 3))) as Hc
    by (by eapply (run_Ok_contiguous (env := sample_env))).
  assert (dict_get (Location_of (obs_A 0 None "")) (data st) = Some d) as Hget
    by (vm_compute; reflexivity).
  destruct (window_span (env := sample_env) _ (Location_of (obs_A 0 None "")) Hc)
    as (st' & d' & Hrun' & Hget' & _ & _ & _ & _ & Hspan); [by vm_compute|].
  rewrite Hrun in Hrun'. injection Hrun' as <-.
  rewrite Hget in Hget'. injection Hget' as <-.
  split_and!; [done..|]. rewrite Hspan; [reflexivity|]. vm_compute. lia.
Defined.

(** After one observation the window spans 3600 seconds with one value, not
    [3600 * (1 - 1)]; after 25 observations it spans 25 hours with 24
    values. *)
Lemma window_span_counterexample :
  (∃ st d,
     main_loop (env := sample_env) (dry_hours 1) = Ok st ∧
     dict_get (Location_of (obs_A 0 None "")) (data st) = Some d ∧
     rain_24h d ≠ [] ∧
     dt_to d - dt_from d ≠ 3600 * (Z.of_nat (length (rain_24h d)) - 1)) ∧
  (∃ st d,
     main_loop (env := sample_env) (dry_hours 25) = Ok st ∧
     dict_get (Location_of (obs_A 0 None "")) (data st) = Some d ∧
     length (rain_24h d) = 24%nat ∧
     dt_to d - dt_from d = 3600 * 25).
Proof.
  split.
  - eexists _, _. split_and!; [by vm_compute..|by vm_compute|by vm_compute].
  - eexists _, _. split_and!; [by vm_compute..|by vm_compute|by vm_compute].
Qed.



(** ["D"] is exactly [river_margin] away from the river. *)
Lemma river_proximity_is_strict_witness :
  let lc := Location_of (obs_D 0 None "") in
  distance (Env := sample_env) tt (point_of (env := sample_env) lc)
    = river_margin (Env := sample_env) ∧
  (lc, "Saar") ∉
    river_flood_report (env := sample_env)
      (final_state (env := sample_env) flood_story).
Proof.
  intros lc.
  assert (NoDup (RIVERS (Env := sample_env)).*1) as Hnd by by_eval.
  assert (("Saar", tt) ∈ RIVERS (Env := sample_env)) as Hin by by_eval.
  assert (distance (Env := sample_env) tt (point_of (env := sample_env) lc)
          = river_margin (Env := sample_env)) as Heq by reflexivity.
  destruct (river_proximity_is_strict (env := sample_env) lc "Saar" tt Hnd Hin)
    as (Hstrict & _).
  split; [done|]. by apply Hstrict.
Defined.

(** Two hourly observations of one location are consecutive in the sorted
    list and share their location, yet they are two groups; so are two
    observations of one location and one timestamp whose rain differs. *)
Lemma groups_split_one_location :
  let a0 := obs_A 0 None "Rain" in
  let a1 := obs_A 3600 None "Rain" in
  let a1' := obs_A 3600 (Some (q 1)) "Rain" in
  (sort [a0; a1] = [a0; a1] ∧
   Location_of a0 = Location_of a1 ∧
   groups_of [a0; a1] = [[a0]; [a1]] ∧
   groups_of [a0; a1] ≠ (groupby Location_of (sort [a0; a1])).*2) ∧
  (sort [a1; a1'] = [a1; a1'] ∧
   (Location_of a1, dt a1) = (Location_of a1', dt a1') ∧
   groups_of [a1; a1'] = [[a1]; [a1']] ∧
   groups_of [a1; a1'] ≠
     (groupby (λ x, (Location_of x, dt x)) (sort [a1; a1'])).*2).
Proof. split; split_and!; by vm_compute. Qed.


(** * Further properties of the loop *)

(** ** Sorting and grouping a part of the input *)

Lemma key_ltb_le_trans x y z :
  key_ltb x y = true → key_le y z → key_ltb x z = true.
Proof.
  unfold key_le. rewrite !key_ltb_lex. intros Hxy Hzy.
  destruct (lex base_ltb String.ltb (sort_key x) (sort_key z)) eqn:Hxz; [done|].
  pose proof (ltb_false_trans (lex base_ltb String.ltb) _ _ _ Hzy Hxz).
  congruence.
Qed.

Lemma insert_sorted_head x l :
  Forall (λ z, key_ltb x z = true) l → insert_sorted x l = x :: l.
Proof.
  destruct l as [|y l]; [done|]. intros [Hy _]%Forall_cons. simpl.
  by rewrite Hy.
Qed.

Lemma filter_idemp {A} (P : A → Prop) `{∀ x, Decision (P x)} (l : list A) :
  filter P (filter P l) = filter P l.
Proof. by apply list_filter_filter_r. Qed.

Lemma filter_fmap_iff {A B} (f : A → B) (P : A → Prop) (Q : B → Prop)
      `{∀ x, Decision (P x)} `{∀ y, Decision (Q y)} (l : list A) :
  Forall (λ x, P x ↔ Q (f x)) l → f <$> filter P l = filter Q (f <$> l).
Proof.
  induction 1 as [|x l Hx _ IH]; [done|].
  rewrite fmap_cons, !filter_cons.
  destruct (decide (P x)) as [HP|HP].
  - rewrite decide_True by by apply Hx. by rewrite fmap_cons, IH.
  - rewrite decide_False by by rewrite <-Hx. done.
Qed.

Section filter_sort.
Context (P : WeatherRecord → Prop) `{∀ x, Decision (P x)}.

(** Inserting into a sorted list and keeping the records with [P] is
    keeping them and inserting among them. *)
Lemma insert_sorted_filter x l :
  StronglySorted key_le l →
  filter P (insert_sorted x l) =
    if decide (P x) then insert_sorted x (filter P l) else filter P l.
Proof.
  induction 1 as [|y l Hl IH Hy]; simpl.
  - rewrite filter_cons, filter_nil. by case_decide.
  - destruct (key_ltb x y) eqn:E.
    + rewrite (filter_cons _ x). destruct (decide (P x)) as [Hx|Hx]; [|done].
      symmetry. apply insert_sorted_head.
      apply Forall_forall. intros z [_ Hz]%list_elem_of_filter.
      apply elem_of_cons in Hz as [->|Hz]; [done|].
      eapply key_ltb_le_trans; [done|]. by apply (proj1 (Forall_forall _ _) Hy).
    + rewrite (filter_cons _ y (insert_sorted x l)), IH, (filter_cons _ y l).
      destruct (decide (P y)); destruct (decide (P x)); simpl; try done.
      by rewrite E.
Qed.

(** Sorting a part of the input gives that part of the sorted input. *)
Lemma sort_filter records : sort (filter P records) = filter P (sort records).
Proof.
  induction records as [|x records IH] using rev_ind; [done|].
  rewrite filter_app, sort_snoc, insert_sorted_filter by apply sort_sorted.
  rewrite filter_cons, filter_nil. destruct (decide (P x)).
  - by rewrite sort_snoc, IH.
  - by rewrite app_nil_r.
Qed.
End filter_sort.

Section groupby_filter.
Context {A K : Type} `{EqDecision K} (key : A → K).
Context (Q : K → Prop) `{∀ k, Decision (Q k)}.

Lemma push_group_keys_NoDup x gs :
  NoDup (push_group key x gs).*1 → NoDup gs.*1.
Proof.
  destruct gs as [|[k g] gs]; simpl; [constructor|].
  case_decide; simpl; [done|]. by intros [_ ?]%NoDup_cons.
Qed.

Lemma push_group_filter x gs :
  NoDup (push_group key x gs).*1 →
  filter (λ kg, Q kg.1) (push_group key x gs) =
    if decide (Q (key x)) then push_group key x (filter (λ kg, Q kg.1) gs)
    else filter (λ kg, Q kg.1) gs.
Proof.
  destruct gs as [|[k g] gs]; simpl.
  { intros _. rewrite filter_cons, filter_nil. simpl. by case_decide. }
  destruct (decide (key x = k)) as [<-|Hk]; simpl.
  - intros _. rewrite !filter_cons. simpl.
    destruct (decide (Q (key x))); simpl; [by rewrite decide_True|done].
  - intros [Hx _]%NoDup_cons.
    rewrite (filter_cons _ (key x, [x])), (filter_cons _ (k, g)). simpl.
    destruct (decide (Q (key x))) as [Hq|Hq]; destruct (decide (Q k)); simpl;
      [by rewrite decide_False| |done..].
    destruct (filter (λ kg, Q kg.1) gs) as [|[k' g'] fs] eqn:E; simpl; [done|].
    rewrite decide_False; [done|]. intros Heq. apply Hx. right.
    apply list_elem_of_fmap. exists (k', g'). split; [done|].
    assert ((k', g') ∈ filter (λ kg, Q kg.1) gs) as Hin.
    { rewrite E. apply list_elem_of_here. }
    by apply list_elem_of_filter in Hin as [_ ?].
Qed.

(** When no key comes back after another one, grouping a part of the list
    chosen by the key gives the groups of the chosen keys. *)
Lemma groupby_filter (P : A → Prop) `{∀ x, Decision (P x)} l :
  (∀ x, P x ↔ Q (key x)) → NoDup (groupby key l).*1 →
  groupby key (filter P l) = filter (λ kg, Q kg.1) (groupby key l).
Proof.
  intros HPQ. induction l as [|x l IH]; [done|].
  rewrite groupby_push. intros Hnd.
  rewrite push_group_filter by done.
  apply push_group_keys_NoDup in Hnd.
  rewrite filter_cons. destruct (decide (P x)) as [Hx|Hx].
  - rewrite decide_True by by apply HPQ. by rewrite groupby_push, IH.
  - rewrite decide_False by by rewrite <-HPQ. by apply IH.
Qed.
End groupby_filter.

Section more_facts.
Context {env : Env}.
Implicit Types (st : state) (rec : WeatherRecord) (recs : list WeatherRecord)
  (groups : list (list WeatherRecord)) (lc : Location) (d : Data).

(** ** The order of the input *)

Lemma key_le_antisym records x y :
  consistent records → x ∈ records → y ∈ records →
  key_le x y → key_le y x → x = y.
Proof.
  unfold key_le. rewrite !key_ltb_lex. intros Hcons Hx Hy Hyx Hxy.
  pose proof (ltb_total (ltb := lex base_ltb String.ltb) _ _ Hxy Hyx) as Hkey.
  assert (base_key x = base_key y) as Hbase by apply (f_equal fst Hkey).
  pose proof (Hcons x y Hx Hy Hbase) as Hrain.
  destruct x, y. unfold sort_key, base_key in Hkey. simpl in *. congruence.
Qed.

Lemma sort_perm_unique records records' :
  records ≡ₚ records' → consistent records → sort records' = sort records.
Proof.
  intros Hperm Hcons.
  apply (StronglySorted_unique_strong key_le); [|apply sort_sorted..|].
  - intros x y Hx Hy. rewrite sort_perm in Hx, Hy. rewrite <-Hperm in Hx.
    by apply (key_le_antisym records).
  - by rewrite !sort_perm.
Qed.

Lemma hourly_input_perm records records' :
  records ≡ₚ records' → hourly_input records → hourly_input records'.
Proof.
  intros Hperm [Hcons Hgap]. split.
  - intros x y Hx Hy. rewrite <-Hperm in Hx, Hy. by apply Hcons.
  - intros x y Hx Hy Hloc Hlt. rewrite <-Hperm in Hx, Hy.
    destruct (Hgap x y Hx Hy Hloc Hlt) as (Hhour & z & Hz & Hrest).
    split; [done|]. exists z. by rewrite <-Hperm.
Qed.

(** X2. The order of the input records does not matter: when the records
    of one place and time agree on the rain, a rearranged input gives the
    same result (the same output, or the same exception); in any case a
    rearranged input is accepted exactly when the input is. *)
Theorem main_ignores_input_order records records' :
  records ≡ₚ records' →
  (consistent records → main records' = main records) ∧
  ((∃ st, main_loop records = Ok st) ↔ (∃ st', main_loop records' = Ok st')).
Proof.
  intros Hperm. split.
  - intros Hcons. unfold main, main_loop, groups_of.
    by rewrite (sort_perm_unique records records').
  - rewrite <-!main_accepts_hourly_inputs. split.
    + by apply hourly_input_perm.
    + by apply hourly_input_perm.
Qed.

(** ** Anchors *)

Lemma fmin_le_r a b : xle (fmin a b) b.
Proof.
  unfold fmin. destruct (xltb b a) eqn:E; [apply xle_refl|].
  destruct a as [|x|], b as [|y|]; simpl in *; try done; try constructor.
  apply Qcnot_lt_le. intros Hlt%Qc_ltb_lt. congruence.
Qed.

Lemma process_group_anchor_inv st g st' :
  NoDup RIVERS.*1 → anchor_inv st → process_group st g = Ok st' →
  anchor_inv st'.
Proof.
  intros Hnd Hinv (rec & recs & d & -> & Hd & ->)%process_group_Ok.
  cbv zeta. intros river line Hin. destruct (Hinv river line Hin) as [Hle Hatt].
  unfold anchor in *. simpl.
  destruct (Qc_leb rain_threshold (sum (rain_24h d))); [|done].
  unfold update_anchors. rewrite (fold_anchor_lookup _ _ _ _ line) by done.
  fold (near line (Location_of rec)).
  destruct (Qc_ltb (distance line (point_of (Location_of rec))) river_margin)
    eqn:Hnear.
  - apply Qc_ltb_lt in Hnear. simpl. split.
    + intros lc [->%elem_of_singleton|Hlc]%elem_of_union Hlcnear.
      * apply fmin_le_r.
      * eapply xle_trans; [apply fmin_le_l|by apply Hle].
    + unfold fmin.
      destruct (xltb (Fin (project line (point_of (Location_of rec))))
                     (default inf (river_flood st !! river))) eqn:E.
      * exists (Location_of rec). split_and!; [set_solver|done..].
      * destruct (river_flood st !! river) as [a|]; [|done].
        destruct Hatt as (lc & Hlc & Hlcnear & ->).
        exists lc. split_and!; [set_solver|done..].
  - assert (¬ near line (Location_of rec)) as Hfar.
    { unfold near. intros Hlt%Qc_ltb_lt. congruence. }
    split.
    + intros lc [->%elem_of_singleton|Hlc]%elem_of_union Hlcnear; [done|].
      by apply Hle.
    + destruct (river_flood st !! river) as [a|].
      * destruct Hatt as (lc & Hlc & Hlcnear & ->).
        exists lc. split_and!; [set_solver|done..].
      * intros lc [->%elem_of_singleton|Hlc]%elem_of_union; [done|].
        by apply Hatt.
Qed.

Lemma run_anchor_inv st groups st' :
  NoDup RIVERS.*1 → anchor_inv st → run st groups = Ok st' → anchor_inv st'.
Proof.
  intros Hnd. revert st. induction groups as [|g groups IH]; intros st Hinv.
  - by intros [= <-].
  - rewrite run_cons. destruct (process_group st g) as [st1|] eqn:E; [|done].
    simpl. apply IH. by eapply process_group_anchor_inv.
Qed.

Lemma init_anchor_inv : anchor_inv init.
Proof.
  intros river line _. split; [by intros lc ?%not_elem_of_empty|].
  simpl. rewrite lookup_empty. by intros lc ?%not_elem_of_empty.
Qed.

(** X3. After the loop the anchor of a river is the least position among
    the rain-flooded locations within the margin of that river: it is at
    most the position of each of them and equal to the position of one of
    them, and the river has no anchor exactly when no rain-flooded
    location is near it. *)
Theorem anchor_is_most_upstream_flood records river line :
  hourly_input records → NoDup RIVERS.*1 → (river, line) ∈ RIVERS →
  ∃ st,
    main_loop records = Ok st ∧
    (∀ lc, lc ∈ rain_flood st → near line lc →
           xle (anchor st river) (Fin (position line lc))) ∧
    ((river_flood st !! river = None ∧
      ∀ lc, lc ∈ rain_flood st → ¬ near line lc) ∨
     (∃ lc, lc ∈ rain_flood st ∧ near line lc ∧
            river_flood st !! river = Some (Fin (position line lc)))).
Proof.
  intros [st Hrun]%main_accepts_hourly_inputs Hnd Hin. exists st.
  split; [done|].
  destruct (run_anchor_inv _ _ _ Hnd init_anchor_inv Hrun river line Hin)
    as [Hle Hatt].
  split; [done|]. destruct (river_flood st !! river) as [a|].
  - right. destruct Hatt as (lc & Hlc & Hlcnear & ->). by exists lc.
  - by left.
Qed.

(** The second pass in a state whose anchors are the least positions. *)
Lemma report_iff_downstream st lc river line :
  NoDup RIVERS.*1 → (river, line) ∈ RIVERS → anchor_inv st →
  lc ∈ (data st).*1 →
  ((lc, river) ∈ river_flood_report st ↔
   (lc ∉ rain_flood st) ∧ near line lc ∧
   ∃ lc', lc' ∈ rain_flood st ∧ near line lc' ∧
          (position line lc' ≤ position line lc)%Qc).
Proof.
  intros Hnd Hin Hinv Hlc. destruct (Hinv river line Hin) as [Hle Hatt].
  rewrite elem_of_river_flood_report. unfold anchor in *. split.
  - intros (_ & Hdry & line' & Hin' & Hnear & Hdown).
    rewrite (NoDup_fst_unique _ _ _ _ Hnd Hin' Hin) in Hnear, Hdown.
    split_and!; [done..|].
    destruct (river_flood st !! river) as [a|]; [|by inversion Hdown].
    destruct Hatt as (lc' & Hlc' & Hnear' & ->).
    exists lc'. split_and!; [done..|]. by inversion Hdown.
  - intros (Hdry & Hnear & lc' & Hlc' & Hnear' & Hpos).
    split_and!; [done..|].
    exists line. split_and!; [done..|].
    eapply xle_trans; [by apply Hle|]. by constructor.
Qed.

(** X4. A location of the input is reported under FLOOD BY RIVER for a
    river exactly when it is not rain-flooded itself, lies within the
    margin of the river, and some rain-flooded location within the margin
    of the same river lies at or before it along the river. *)
Theorem river_flooded_iff_downstream records rec river line :
  hourly_input records → rec ∈ records →
  NoDup RIVERS.*1 → (river, line) ∈ RIVERS →
  ∃ st,
    main_loop records = Ok st ∧
    ((Location_of rec, river) ∈ river_flood_report st ↔
     (Location_of rec ∉ rain_flood st) ∧ near line (Location_of rec) ∧
     ∃ lc', lc' ∈ rain_flood st ∧ near line lc' ∧
            (position line lc' ≤ position line (Location_of rec))%Qc).
Proof.
  intros [st Hrun]%main_accepts_hourly_inputs Hrec Hnd Hin. exists st.
  split; [done|]. apply report_iff_downstream; [done..| |].
  - by eapply run_anchor_inv; [|apply init_anchor_inv|].
  - by eapply main_loop_tracks.
Qed.

(** ** Windows and tracked locations *)

Lemma window_inv_window_of h lc d :
  window_inv h lc d → window_of lc h = Some d.
Proof.
  intros (Hloc & Hne & Hrain & Hfrom & Hdt).
  destruct h as [|r0 h]; [done|]. unfold window_of.
  pose proof (Hdt 0%nat r0 eq_refl) as H0.
  assert (dt (List.last (r0 :: h) r0) = dt_to d) as Hlast.
  { destruct (last (r0 :: h)) as [r|] eqn:E; [|by apply last_None in E].
    pose proof E as Hr. rewrite last_lookup in Hr. apply Hdt in Hr.
    apply last_Some in E as (l' & E). rewrite E, List.last_last.
    rewrite E in Hr. rewrite length_app in Hr. simpl in Hr. lia. }
  rewrite Hlast. destruct d. simpl in *. f_equal. f_equal; [done|lia|done].
Qed.

(** X7. The window that a location has after the loop depends on its own
    observations only: it starts one hour before the first of them (the
    start is never moved), ends at the latest one and holds the last 24
    hourly rains; a location without observations has no window. *)
Theorem window_closed_form groups :
  contiguous groups →
  ∃ st, run init groups = Ok st ∧
        ∀ lc, dict_get lc (data st) = window_of lc (obs_of lc groups).
Proof.
  intros [st Hrun]%contiguous_run. exists st. split; [done|]. intros lc.
  apply run_inv in Hrun as [Hdata _]. specialize (Hdata lc).
  destruct (dict_get lc (data st)) as [d|].
  - symmetry. by apply window_inv_window_of.
  - by rewrite Hdata.
Qed.

Lemma run_data_NoDup st groups st' :
  NoDup (data st).*1 → run st groups = Ok st' → NoDup (data st').*1.
Proof.
  revert st. induction groups as [|g groups IH]; intros st Hnd.
  - by intros [= <-].
  - rewrite run_cons. destruct (process_group st g) as [st1|] eqn:E; [|done].
    simpl. apply IH.
    apply process_group_Ok in E as (rec & recs & d & -> & _ & ->). simpl.
    by apply dict_set_keys_NoDup.
Qed.

Lemma river_flood_report_NoDup st :
  NoDup RIVERS.*1 → NoDup (data st).*1 → NoDup (river_flood_report st).
Proof.
  intros Hriv Hdata. unfold river_flood_report. apply NoDup_bind.
  - intros [lc1 d1] [lc2 d2] [lc river] H1 H2 Hy1 Hy2.
    assert (lc = lc1) as <-.
    { destruct (bool_decide (lc1 ∈ rain_flood st)); [by apply elem_of_nil in Hy1|].
      apply list_elem_of_bind in Hy1 as (item & Hy1 & _).
      destruct (downstream _ _ item); [|by apply elem_of_nil in Hy1].
      by apply list_elem_of_singleton in Hy1 as [= -> _]. }
    assert (lc = lc2) as <-.
    { destruct (bool_decide (lc2 ∈ rain_flood st)); [by apply elem_of_nil in Hy2|].
      apply list_elem_of_bind in Hy2 as (item & Hy2 & _).
      destruct (downstream _ _ item); [|by apply elem_of_nil in Hy2].
      by apply list_elem_of_singleton in Hy2 as [= -> _]. }
    f_equal. by eapply NoDup_fst_unique.
  - intros [lc d] _. destruct (bool_decide (lc ∈ rain_flood st)); [constructor|].
    apply NoDup_bind.
    + intros [r1 l1] [r2 l2] y Hi1 Hi2 Hy1 Hy2.
      destruct (downstream _ _ (r1, l1)); [|by apply elem_of_nil in Hy1].
      destruct (downstream _ _ (r2, l2)); [|by apply elem_of_nil in Hy2].
      apply list_elem_of_singleton in Hy1, Hy2. simpl in *. simplify_eq.
      f_equal. by eapply NoDup_fst_unique.
    + intros item _. destruct (downstream _ _ item); [|constructor].
      apply NoDup_singleton.
    + by eapply NoDup_fmap_1.
  - by eapply NoDup_fmap_1.
Qed.

(** X5. The loop tracks every location of the input exactly once and no
    other; the rain-flooded locations are among them; and FLOOD BY RIVER
    prints no line twice, each line naming a tracked location and a river
    of the table. *)
Theorem tracked_locations records :
  hourly_input records → NoDup RIVERS.*1 →
  ∃ st,
    main_loop records = Ok st ∧
    NoDup (data st).*1 ∧
    (∀ lc, lc ∈ (data st).*1 ↔ ∃ rec, rec ∈ records ∧ Location_of rec = lc) ∧
    (∀ lc, lc ∈ rain_flood st → lc ∈ (data st).*1) ∧
    NoDup (river_flood_report st) ∧
    (∀ lc river, (lc, river) ∈ river_flood_report st →
                 lc ∈ (data st).*1 ∧ river ∈ RIVERS.*1).
Proof.
  intros [st Hrun]%main_accepts_hourly_inputs Hriv. exists st.
  assert (NoDup (data st).*1) as Hnd.
  { eapply run_data_NoDup; [|done]. constructor. }
  pose proof (run_inv _ _ Hrun) as [Hdata Hrain].
  assert (∀ lc, lc ∈ (data st).*1 ↔ obs_of lc (groups_of records) ≠ []) as Hkeys.
  { intros lc. rewrite <-dict_get_is_Some. specialize (Hdata lc).
    destruct (dict_get lc (data st)) as [d|].
    - destruct Hdata as (_ & Hne & _). split; [done|by eexists].
    - rewrite Hdata. split; [by intros [? ?]|done]. }
  split_and!; [done..| | | |].
  - intros lc. rewrite Hkeys. split.
    + destruct (obs_of lc (groups_of records)) as [|h l] eqn:E; [done|].
      intros _. exists h. apply obs_of_records. rewrite E. apply list_elem_of_here.
    + intros (rec & Hrec & <-).
      destruct (records_obs_of records rec Hrec) as (h & Hh & _).
      intros E. rewrite E in Hh. by apply elem_of_nil in Hh.
  - intros lc (k & Hk & _)%Hrain. apply Hkeys. intros E. rewrite E in Hk.
    simpl in Hk. lia.
  - by apply river_flood_report_NoDup.
  - intros lc river (Hlc & _ & line & Hin & _)%elem_of_river_flood_report.
    split; [done|]. apply list_elem_of_fmap. by exists (river, line).
Qed.

(** ** The advisories *)

Lemma run_printed groups st :
  run init groups = Ok st → printed st = reports groups.
Proof.
  revert st. induction groups as [|g groups IH] using rev_ind; intros st.
  - by intros [= <-].
  - intros Hrun. pose proof (run_inv _ _ Hrun) as [Hdata _].
    rewrite run_snoc in Hrun.
    destruct (run init groups) as [st0|] eqn:Hrun0; [|done]. simpl in Hrun.
    unfold reports. rewrite imap_app, omap_app. simpl.
    rewrite Nat.add_0_r, take_app_length.
    rewrite (imap_ext _ (λ i g, report_of (take i groups) g)); cycle 1.
    { intros i x Hi. apply lookup_lt_Some in Hi. by rewrite take_app_le by lia. }
    fold (reports groups). rewrite <-(IH st0 eq_refl).
    apply process_group_Ok in Hrun as (rec & recs & d & -> & Hd & ->).
    cbv zeta in *. specialize (Hdata (Location_of rec)). simpl in *.
    rewrite dict_get_set_eq in Hdata. destruct Hdata as (_ & _ & Hrain & _).
    unfold rolling. rewrite <-Hrain.
    case_bool_decide; case_decide; try done. by rewrite app_nil_r.
Qed.

Lemma groups_of_uniform records g :
  g ∈ groups_of records →
  ∃ rec recs, g = rec :: recs ∧
              Forall (λ x, group_key x = group_key rec) g.
Proof.
  intros ([k g'] & -> & Hkg)%list_elem_of_fmap. simpl.
  pose proof (groupby_keys group_key (sort records)) as Hkeys.
  pose proof (groupby_nonempty group_key (sort records)) as Hne.
  rewrite Forall_forall in Hkeys, Hne.
  specialize (Hkeys _ Hkg). specialize (Hne _ Hkg). simpl in *.
  destruct g' as [|rec recs]; [done|]. exists rec, recs. split; [done|].
  pose proof Hkeys as [<- _]%Forall_cons. done.
Qed.

(** Every line of [reports] has a level above [NONE] and carries the
    location and the timestamp that the records of its group share. *)
Lemma reports_lines records r :
  r ∈ reports (groups_of records) →
  report_skill r ≠ NONE ∧
  ∃ g, g ∈ groups_of records ∧ g ≠ [] ∧
       Forall (λ x, Location_of x = report_loc r ∧ dt x = report_dt r) g.
Proof.
  unfold reports.
  intros (o & Ho & Hr)%list_elem_of_omap. simpl in Hr. subst o.
  apply list_elem_of_lookup in Ho as [i Hi].
  rewrite list_lookup_imap in Hi.
  destruct (groups_of records !! i) as [g|] eqn:Hg; [|done]. simpl in Hi.
  injection Hi as Hi.
  apply list_elem_of_lookup_2 in Hg.
  destruct (groups_of_uniform _ _ Hg) as (rec & recs & -> & Hkeys).
  unfold report_of in Hi. cbv zeta in Hi. case_decide as Hlevel; [done|].
  injection Hi as <-. cbn [report_skill report_loc report_dt]. split; [done|].
  exists (rec :: recs). split_and!; [done..|].
  change (match recs with [] => rec | _ :: _ => List.last recs rec end)
    with (List.last (rec :: recs) rec).
  assert (dt (List.last (rec :: recs) rec) = dt rec) as ->.
  { assert (List.last (rec :: recs) rec ∈ rec :: recs) as Hlast.
    { destruct (last (rec :: recs)) as [x|] eqn:E; [|by apply last_None in E].
      pose proof (last_Some_elem_of _ _ E) as Hx.
      apply last_Some in E as (l' & E). by rewrite E, List.last_last, <-E. }
    apply (proj1 (Forall_forall _ _) Hkeys) in Hlast. by injection Hlast. }
  eapply Forall_impl; [done|]. intros x Hx. simpl in Hx.
  split; [by apply group_key_Location|by injection Hx].
Qed.
(** ** Failures *)

Lemma run_Raise st groups e :
  run st groups = Raise e →
  ∃ before g after st',
    groups = before ++ g :: after ∧ run st before = Ok st' ∧
    process_group st' g = Raise e.
Proof.
  revert st. induction groups as [|g groups IH]; intros st; [done|].
  rewrite run_cons. destruct (process_group st g) as [st1|e1] eqn:E; simpl.
  - intros (before & g' & after & st' & -> & Hrun & Hstep)%IH.
    exists (g :: before), g', after, st'. split_and!; [done| |done].
    by rewrite run_cons, E.
  - intros [= <-]. by exists [], g, groups, st.
Qed.



Lemma heads_sorted records :
  StronglySorted key_le (omap head (groups_of records)).
Proof.
  eapply StronglySorted_sublist; [apply heads_sublist|apply sort_sorted].
Qed.


(** ** Locations do not influence one another *)

(** Under consistency the first records of two groups differ in place or
    time. *)
Lemma heads_base_distinct records i j a b :
  consistent records → (i < j)%nat →
  omap head (groups_of records) !! i = Some a →
  omap head (groups_of records) !! j = Some b →
  base_key a ≠ base_key b.
Proof.
  intros Hcons Hij Hi Hj Heq. pose proof (heads_sorted records) as Hsorted.
  destruct (lookup_lt_is_Some_2 (omap head (groups_of records)) (S i)) as [c Hc].
  { apply lookup_lt_Some in Hj. lia. }
  assert (key_le a c) as Hac.
  { apply (StronglySorted_lookup _ _ i (S i) _ _ Hsorted); [lia|done..]. }
  assert (key_le c b) as Hcb.
  { destruct (decide (S i = j)) as [<-|Hne].
    - rewrite Hc in Hj. by injection Hj as <-.
    - apply (StronglySorted_lookup _ _ (S i) j _ _ Hsorted); [lia|done..]. }
  pose proof (key_le_squeeze a c b Hac Hcb Heq) as Hca.
  apply (heads_adjacent group_key (sort records) i a c); [done..|].
  unfold group_key, base_key in *.
  rewrite (Hcons a c); [congruence|..|done];
    apply heads_records; by eapply list_elem_of_lookup_2.
Qed.

Lemma group_keys_NoDup records :
  consistent records → NoDup (groupby group_key (sort records)).*1.
Proof.
  intros Hcons.
  assert (∀ i j k, (i < j)%nat →
            (groupby group_key (sort records)).*1 !! i = Some k →
            (groupby group_key (sort records)).*1 !! j = Some k → False) as Hlt.
  { intros i j k Hij Hi Hj. rewrite list_lookup_fmap in Hi, Hj.
    destruct (groupby group_key (sort records) !! i) as [[k1 g1]|] eqn:E1; [|done].
    destruct (groupby group_key (sort records) !! j) as [[k2 g2]|] eqn:E2; [|done].
    simpl in Hi, Hj. injection Hi as ->. injection Hj as ->.
    pose proof (groupby_keys group_key (sort records)) as Hkeys.
    pose proof (groupby_nonempty group_key (sort records)) as Hne.
    rewrite Forall_lookup in Hkeys, Hne.
    pose proof (Hkeys _ _ E1) as Hk1. pose proof (Hkeys _ _ E2) as Hk2.
    pose proof (Hne _ _ E1) as Hn1. pose proof (Hne _ _ E2) as Hn2.
    simpl in *. destruct g1 as [|a g1]; [done|]. destruct g2 as [|b g2]; [done|].
    apply Forall_cons in Hk1 as [Ha _]. apply Forall_cons in Hk2 as [Hb _].
    apply (heads_base_distinct records i j a b Hcons Hij).
    - unfold groups_of.
      rewrite omap_head_lookup by apply groupby_group_nonempty.
      by rewrite list_lookup_fmap, E1.
    - unfold groups_of.
      rewrite omap_head_lookup by apply groupby_group_nonempty.
      by rewrite list_lookup_fmap, E2.
    - apply group_key_base. congruence. }
  apply NoDup_alt. intros i j k Hi Hj.
  destruct (Nat.lt_trichotomy i j) as [Hij|[Hij|Hij]]; [|done|];
    exfalso; eauto.
Qed.

(** The groups of the records of one location are the groups of that
    location. *)
Lemma groups_of_filter records lc :
  consistent records →
  groups_of (filter (λ r, Location_of r = lc) records) =
    filter (λ g, Location_of <$> head g = Some lc) (groups_of records).
Proof.
  intros Hcons. unfold groups_of. rewrite sort_filter.
  rewrite (groupby_filter group_key
             (λ k, mkLocation k.1.1.1.1 k.1.1.2 k.1.2 = lc));
    [|done|by apply group_keys_NoDup].
  apply filter_fmap_iff.
  pose proof (groupby_keys group_key (sort records)) as Hkeys.
  pose proof (groupby_nonempty group_key (sort records)) as Hne.
  rewrite Forall_forall in Hkeys, Hne. apply Forall_forall.
  intros [k g] Hkg. specialize (Hkeys _ Hkg). specialize (Hne _ Hkg).
  simpl in *. destruct g as [|a g]; [done|].
  apply Forall_cons in Hkeys as [<- _]. simpl. unfold Location_of.
  split; [by intros ->|by intros [= ->]].
Qed.

Lemma omap_head_filter lc groups :
  omap head (filter (λ g, Location_of <$> head g = Some lc) groups) =
    filter (λ r, Location_of r = lc) (omap head groups).
Proof.
  induction groups as [|[|r g] groups IH]; [done|..]; rewrite filter_cons.
  - by rewrite decide_False by done.
  - rewrite omap_head_cons, filter_cons. simpl.
    destruct (decide (Location_of r = lc)) as [Hr|Hr].
    + rewrite decide_True by by rewrite Hr. by rewrite omap_head_cons, IH.
    + rewrite decide_False by (by intros [= ?]). done.
Qed.

Lemma obs_of_filter_same lc groups :
  obs_of lc (filter (λ g, Location_of <$> head g = Some lc) groups) =
    obs_of lc groups.
Proof. unfold obs_of. by rewrite omap_head_filter, filter_idemp. Qed.

Lemma obs_of_filter_other lc lc' groups :
  lc' ≠ lc →
  obs_of lc' (filter (λ g, Location_of <$> head g = Some lc) groups) = [].
Proof.
  intros Hne. unfold obs_of. rewrite omap_head_filter. apply filter_none.
  apply Forall_forall. intros x [Hx _]%list_elem_of_filter. congruence.
Qed.

Lemma contiguous_filter lc groups :
  contiguous groups →
  contiguous (filter (λ g, Location_of <$> head g = Some lc) groups).
Proof.
  intros [Hne Hh]. split.
  - apply Forall_forall. intros g [_ Hg]%list_elem_of_filter.
    by apply (proj1 (Forall_forall _ _) Hne).
  - intros lc'. destruct (decide (lc' = lc)) as [->|Hne'].
    + rewrite obs_of_filter_same. apply Hh.
    + rewrite obs_of_filter_other by done. by intros i r r' ?.
Qed.

Lemma run_window_of groups st lc :
  run init groups = Ok st →
  dict_get lc (data st) = window_of lc (obs_of lc groups).
Proof.
  intros [Hdata _]%run_inv. specialize (Hdata lc).
  destruct (dict_get lc (data st)) as [d|].
  - symmetry. by apply window_inv_window_of.
  - by rewrite Hdata.
Qed.

Lemma reports_snoc groups g :
  reports (groups ++ [g]) =
    reports groups ++
      match report_of groups g with Some r => [r] | None => [] end.
Proof.
  unfold reports. rewrite imap_app, omap_app. simpl.
  rewrite Nat.add_0_r, take_app_length.
  rewrite (imap_ext _ (λ i g, report_of (take i groups) g)); cycle 1.
  { intros i x Hi. apply lookup_lt_Some in Hi. by rewrite take_app_le by lia. }
  by destruct (report_of groups g).
Qed.

Lemma report_of_loc before g r :
  report_of before g = Some r → Location_of <$> head g = Some (report_loc r).
Proof.
  destruct g as [|rec recs]; [done|]. unfold report_of. cbv zeta.
  case_decide; [done|]. by intros [= <-].
Qed.

(** The lines of one location are the lines of its groups alone. *)
Lemma reports_filter lc groups :
  filter (λ r, report_loc r = lc) (reports groups) =
    reports (filter (λ g, Location_of <$> head g = Some lc) groups).
Proof.
  induction groups as [|g groups IH] using rev_ind; [done|].
  rewrite reports_snoc, !filter_app, IH, (filter_cons _ g []), filter_nil.
  destruct (decide (Location_of <$> head g = Some lc)) as [Hg|Hg].
  - rewrite reports_snoc. f_equal.
    assert (report_of
              (filter (λ g, Location_of <$> head g = Some lc) groups) g =
            report_of groups g) as ->.
    { destruct g as [|rec recs]; [done|]. unfold report_of. cbv zeta.
      injection Hg as Hg.
      by rewrite !obs_of_snoc, Hg, obs_of_filter_same. }
    destruct (report_of groups g) as [r|] eqn:E; [|done].
    apply report_of_loc in E. rewrite filter_cons, decide_True; [done|].
    congruence.
  - rewrite app_nil_r.
    destruct (report_of groups g) as [r|] eqn:E; [|by rewrite app_nil_r].
    apply report_of_loc in E.
    rewrite filter_cons, decide_False, filter_nil, app_nil_r; [done|].
    intros Heq. apply Hg. by rewrite E, Heq.
Qed.

(** The groups of one location alone give that location the window, the
    flag and the lines that all groups give it. *)
Lemma run_own_location records lc :
  hourly_input records →
  ∃ st st',
    main_loop records = Ok st ∧
    main_loop (filter (λ r, Location_of r = lc) records) = Ok st' ∧
    dict_get lc (data st) = dict_get lc (data st') ∧
    (lc ∈ rain_flood st ↔ lc ∈ rain_flood st') ∧
    filter (λ r, report_loc r = lc) (printed st) = printed st'.
Proof.
  intros Hin. pose proof (hourly_input_contiguous _ Hin) as Hc.
  destruct (contiguous_run _ Hc) as [st Hrun].
  pose proof (contiguous_filter lc _ Hc) as Hc'.
  destruct (contiguous_run _ Hc') as [st' Hrun'].
  exists st, st'. unfold main_loop. rewrite groups_of_filter by apply Hin.
  split_and!; [done..| | |].
  - by rewrite (run_window_of _ _ _ Hrun), (run_window_of _ _ _ Hrun'),
         obs_of_filter_same.
  - destruct (run_inv _ _ Hrun) as [_ Hr]. destruct (run_inv _ _ Hrun') as [_ Hr'].
    by rewrite (Hr lc), (Hr' lc), obs_of_filter_same.
  - by rewrite (run_printed _ _ Hrun), (run_printed _ _ Hrun'), reports_filter.
Qed.

End more_facts.

(** * The command line and the tables *)

(** ** The windows do not depend on the parameters *)

Lemma process_group_data_env (e1 e2 : Env) st1 st2 g st1' :
  data st1 = data st2 → process_group (env := e1) st1 g = Ok st1' →
  ∃ st2', process_group (env := e2) st2 g = Ok st2' ∧ data st1' = data st2'.
Proof.
  intros Hd (rec & recs & d & -> & Hw & ->)%process_group_Ok.
  unfold process_group. rewrite <-Hd, Hw. simpl.
  eexists. split; [reflexivity|]. simpl. by rewrite Hd.
Qed.

Lemma run_data_env (e1 e2 : Env) groups st1 st2 st1' :
  data st1 = data st2 → run (env := e1) st1 groups = Ok st1' →
  ∃ st2', run (env := e2) st2 groups = Ok st2' ∧ data st1' = data st2'.
Proof.
  revert st1 st2. induction groups as [|g groups IH]; intros st1 st2 Hd.
  - intros [= <-]. by exists st2.
  - rewrite !run_cons.
    destruct (process_group (env := e1) st1 g) as [st1''|] eqn:E; [|done].
    destruct (process_group_data_env e1 e2 _ st2 _ _ Hd E) as (st2'' & -> & Hd').
    simpl. by apply IH.
Qed.

(** The threshold decides the rain-flooded set only, and a higher one
    gives a smaller set. *)
Lemma threshold_runs (e : Env) (t t' : Qc) records :
  (t ≤ t')%Qc → hourly_input records →
  ∃ st st',
    main_loop (env := with_threshold e t) records = Ok st ∧
    main_loop (env := with_threshold e t') records = Ok st' ∧
    data st' = data st ∧
    printed st' = printed st ∧
    rain_flood st' ⊆ rain_flood st.
Proof.
  intros Hle Hin.
  destruct (proj1 (main_accepts_hourly_inputs (env := with_threshold e t) records) Hin)
    as [st Hrun].
  destruct (run_data_env (with_threshold e t) (with_threshold e t') _
              init init st eq_refl Hrun) as (st' & Hrun' & Hdata).
  exists st, st'. split_and!; [done..| |].
  - by rewrite (run_printed (env := with_threshold e t) _ _ Hrun),
               (run_printed (env := with_threshold e t') _ _ Hrun').
  - destruct (run_inv (env := with_threshold e t) _ _ Hrun) as [_ Hr].
    destruct (run_inv (env := with_threshold e t') _ _ Hrun') as [_ Hr'].
    intros lc (k & Hk & Hthr)%Hr'. apply Hr. exists k. split; [done|].
    simpl in *. by eapply Qcle_trans.
Qed.

(** The margin leaves the rain-flooded set alone, and a wider one keeps
    every line of the second pass. *)
Lemma margin_runs (e : Env) (m m' : Qc) records rec river
      (line : @LineString e) :
  (m ≤ m')%Qc → hourly_input records → rec ∈ records →
  NoDup (@RIVERS e).*1 → (river, line) ∈ @RIVERS e →
  ∃ st st',
    main_loop (env := with_margin e m) records = Ok st ∧
    main_loop (env := with_margin e m') records = Ok st' ∧
    rain_flood st' = rain_flood st ∧
    printed st' = printed st ∧
    ((Location_of rec, river) ∈ river_flood_report (env := with_margin e m) st →
     (Location_of rec, river) ∈ river_flood_report (env := with_margin e m') st').
Proof.
  intros Hle Hin Hrec Hnd Hriv.
  destruct (proj1 (main_accepts_hourly_inputs (env := with_margin e m) records) Hin)
    as [st Hrun].
  destruct (run_data_env (with_margin e m) (with_margin e m') _
              init init st eq_refl Hrun) as (st' & Hrun' & Hdata).
  assert (rain_flood st' = rain_flood st) as Hrain.
  { destruct (run_inv (env := with_margin e m) _ _ Hrun) as [_ Hr].
    destruct (run_inv (env := with_margin e m') _ _ Hrun') as [_ Hr'].
    apply set_eq. intros lc. by rewrite (Hr lc), (Hr' lc). }
  exists st, st'. split_and!; [done..| |].
  { by rewrite (run_printed (env := with_margin e m) _ _ Hrun),
               (run_printed (env := with_margin e m') _ _ Hrun'). }
  rewrite (report_iff_downstream (env := with_margin e m) st _ river line);
    [|done|done| |]; cycle 1.
  { by eapply (run_anchor_inv (env := with_margin e m));
      [|apply init_anchor_inv|]. }
  { by eapply (main_loop_tracks (env := with_margin e m)). }
  rewrite (report_iff_downstream (env := with_margin e m') st' _ river line);
    [|done|done| |]; cycle 1.
  { by eapply (run_anchor_inv (env := with_margin e m'));
      [|apply init_anchor_inv|]. }
  { by eapply (main_loop_tracks (env := with_margin e m')). }
  rewrite Hrain. unfold near, position. simpl.
  intros (Hdry & Hnear & lc' & Hlc' & Hnear' & Hpos).
  split_and!; [done|by eapply Qclt_le_trans|].
  exists lc'. split_and!; [done|by eapply Qclt_le_trans|done].
Qed.

(** ** The rules table *)

Lemma group_skill_le (e1 e2 : Env) recs recs' rain_sum :
  (∀ r, r ∈ @RAIN_TO_SKILLS e1 → r ∈ @RAIN_TO_SKILLS e2) →
  (∀ x, x ∈ recs → x ∈ recs') →
  skill_value (group_skill (env := e1) recs rain_sum) ≤
    skill_value (group_skill (env := e2) recs' rain_sum).
Proof.
  intros Hrules Hrecs.
  destruct (skill_loop_attained (env := e1) rain_sum recs NONE)
    as [Heq|(rec & r2s & Hrec & Hr & Happ & Heq)].
  - unfold group_skill. fold (skill_loop (env := e1) rain_sum recs NONE).
    rewrite Heq. apply (skill_loop_ge (env := e2) rain_sum recs' NONE).
  - unfold group_skill at 1. fold (skill_loop (env := e1) rain_sum recs NONE).
    rewrite <-Heq.
    apply (skill_loop_bound (env := e2) rain_sum recs' NONE rec r2s); auto.
Qed.

Lemma group_skill_same_rules (e : Env) rules recs rain_sum :
  (∀ r, r ∈ rules ↔ r ∈ @RAIN_TO_SKILLS e) →
  group_skill (env := with_rules e rules) recs rain_sum =
    group_skill (env := e) recs rain_sum.
Proof.
  intros Hrules. apply skill_value_inj, Z.le_antisymm.
  - apply group_skill_le; [|done]. intros r. apply Hrules.
  - apply group_skill_le; [|done]. intros r. apply Hrules.
Qed.

Lemma process_group_same_rules (e : Env) rules st g :
  (∀ r, r ∈ rules ↔ r ∈ @RAIN_TO_SKILLS e) →
  process_group (env := with_rules e rules) st g =
    process_group (env := e) st g.
Proof.
  intros Hrules. destruct g as [|rec recs]; [done|]. unfold process_group.
  destruct (update_window (data st) rec) as [d|]; [|done]. simpl.
  by rewrite (group_skill_same_rules e rules).
Qed.

Lemma run_same_rules (e : Env) rules st groups :
  (∀ r, r ∈ rules ↔ r ∈ @RAIN_TO_SKILLS e) →
  run (env := with_rules e rules) st groups = run (env := e) st groups.
Proof.
  intros Hrules. revert st. induction groups as [|g groups IH]; intros st; [done|].
  rewrite !run_cons, process_group_same_rules by done.
  destruct (process_group (env := e) st g); [apply IH|done].
Qed.

(** X11. The level of a group never drops when rules are added to the
    table or records to the group, whatever their order: with every rule of
    the first table in the second and every record of the first group in
    the second, the first level is at most the second; so two tables with
    the same rules give two groups with the same records the same level. *)
Theorem skill_level_is_monotone (e1 e2 : Env) recs recs' rain_sum :
  (∀ r, r ∈ @RAIN_TO_SKILLS e1 → r ∈ @RAIN_TO_SKILLS e2) →
  (∀ x, x ∈ recs → x ∈ recs') →
  skill_value (group_skill (env := e1) recs rain_sum) ≤
    skill_value (group_skill (env := e2) recs' rain_sum) ∧
  ((∀ r, r ∈ @RAIN_TO_SKILLS e2 → r ∈ @RAIN_TO_SKILLS e1) →
   (∀ x, x ∈ recs' → x ∈ recs) →
   group_skill (env := e1) recs rain_sum =
     group_skill (env := e2) recs' rain_sum).
Proof.
  intros Hrules Hrecs. split; [by apply group_skill_le|].
  intros Hrules' Hrecs'. apply skill_value_inj, Z.le_antisymm.
  - by apply group_skill_le.
  - by apply group_skill_le.
Qed.

(** X12. The order of the rows of the rules table, and a row given twice,
    make no difference to [main]: a table with the same rules gives the
    same result on every input. *)
Theorem rules_order_is_irrelevant (e : Env) rules records :
  (∀ r, r ∈ rules ↔ r ∈ @RAIN_TO_SKILLS e) →
  main (env := with_rules e rules) records = main (env := e) records.
Proof.
  intros Hrules. unfold main, main_loop.
  rewrite run_same_rules by done.
  by destruct (run (env := e) init (groups_of records)).
Qed.

(** ** Missing rain values *)

Lemma key_ltb_fill a b : key_ltb (fill_rain a) (fill_rain b) = key_ltb a b.
Proof. reflexivity. Qed.

Lemma insert_sorted_fill x l :
  insert_sorted (fill_rain x) (fill_rain <$> l) = fill_rain <$> insert_sorted x l.
Proof.
  induction l as [|y l IH]; [done|]. rewrite fmap_cons.
  cbn [insert_sorted]. rewrite key_ltb_fill.
  destruct (key_ltb x y); [done|]. rewrite fmap_cons. f_equal. apply IH.
Qed.

Lemma sort_fill records : sort (fill_rain <$> records) = fill_rain <$> sort records.
Proof.
  induction records as [|x records IH] using rev_ind; [done|].
  rewrite fmap_app. change (fill_rain <$> [x]) with [fill_rain x].
  rewrite !sort_snoc, IH. apply insert_sorted_fill.
Qed.

Lemma last_fmap_default {A B} (f : A → B) l d :
  List.last (f <$> l) (f d) = f (List.last l d).
Proof.
  induction l as [|x l IH]; [done|]. destruct l as [|y l]; [done|].
  by rewrite !fmap_cons in *.
Qed.

Section groupby_fmap.
Context {A K : Type} `{EqDecision K} (key : A → K) (f : A → A) (fk : K → K).

(** Grouping the images under a map that changes the keys without merging
    two keys of the list gives the images of the groups. *)
Lemma groupby_fmap (l : list A) :
  (∀ x, key (f x) = fk (key x)) →
  (∀ x y, x ∈ l → y ∈ l → fk (key x) = fk (key y) → key x = key y) →
  groupby key (f <$> l) =
    (λ kg : K * list A, (fk kg.1, f <$> kg.2)) <$> groupby key l.
Proof.
  intros Hk. induction l as [|x l IH]; intros Hinj; [done|].
  rewrite fmap_cons, !groupby_cons.
  rewrite IH by (intros y z Hy Hz; apply Hinj; by right).
  destruct (groupby key l) as [|[k g] gs] eqn:E; simpl.
  { by rewrite Hk. }
  pose proof (groupby_head _ _ _ _ _ E) as (y & g' & -> & Hy & ->).
  apply head_Some_elem_of in Hy. rewrite Hk.
  destruct (decide (key x = key y)) as [Heq|Hne].
  - rewrite decide_True by by rewrite Heq. done.
  - rewrite decide_False; [done|]. intros Hfk. apply Hne, Hinj; [left|by right|done].
Qed.
End groupby_fmap.

Section missing_rain.
Context {env : Env}.

Lemma groups_of_fill records :
  consistent records →
  groups_of (fill_rain <$> records) = fmap (M := list) fill_rain <$> groups_of records.
Proof.
  intros Hcons. unfold groups_of.
  rewrite sort_fill, (groupby_fmap group_key fill_rain fill_key); [|done|].
  - rewrite <-!list_fmap_compose. by apply list_fmap_ext.
  - intros x y Hx Hy Hfill. rewrite sort_perm in Hx, Hy.
    assert (base_key x = base_key y) as Hbase.
    { unfold fill_key, group_key, base_key in *. simpl in Hfill. congruence. }
    pose proof (Hcons x y Hx Hy Hbase). unfold group_key, base_key in *.
    congruence.
Qed.

Lemma update_window_fill data rec :
  update_window data (fill_rain rec) =
    match update_window data rec with
    | Ok d => Ok d
    | Raise e => Raise (fill_exn e)
    end.
Proof.
  unfold update_window.
  change (Location_of (fill_rain rec)) with (Location_of rec).
  change (dt (fill_rain rec)) with (dt rec).
  change (rain_1h (fill_rain rec)) with (Some (rain_of rec)).
  destruct (dict_get (Location_of rec) data) as [d|]; simpl; [|done].
  by destruct (bool_decide (Location_of rec ≠ loc d)
               || bool_decide (dt rec = dt_to d + 3600)).
Qed.

Lemma skill_loop_fill rain_sum recs level :
  skill_loop rain_sum (fill_rain <$> recs) level = skill_loop rain_sum recs level.
Proof.
  revert level. induction recs as [|rec recs IH]; intros level; [done|].
  rewrite fmap_cons. unfold skill_loop in *. simpl. by rewrite IH.
Qed.

Lemma process_group_fill st g :
  process_group st (fill_rain <$> g) =
    match process_group st g with
    | Ok st' => Ok st'
    | Raise e => Raise (fill_exn e)
    end.
Proof.
  destruct g as [|rec recs]; [done|]. rewrite fmap_cons. unfold process_group.
  rewrite update_window_fill.
  destruct (update_window (data st) rec) as [d|]; [|done]. simpl.
  change (Location_of (fill_rain rec)) with (Location_of rec).
  rewrite <-(fmap_cons fill_rain rec recs).
  unfold group_skill. fold (skill_loop (sum (rain_24h d)) (fill_rain <$> rec :: recs) NONE).
  rewrite skill_loop_fill. unfold skill_loop.
  change (match fill_rain <$> recs with
          | [] => fill_rain rec
          | _ :: _ => List.last (fill_rain <$> recs) (fill_rain rec)
          end) with (List.last (fill_rain <$> rec :: recs) (fill_rain rec)).
  by rewrite last_fmap_default.
Qed.

Lemma run_fill st groups :
  run st (fmap (M := list) fill_rain <$> groups) =
    match run st groups with
    | Ok st' => Ok st'
    | Raise e => Raise (fill_exn e)
    end.
Proof.
  revert st. induction groups as [|g groups IH]; intros st; [done|].
  rewrite fmap_cons, !run_cons, process_group_fill.
  destruct (process_group st g); [apply IH|done].
Qed.

(** X13. A missing rain value counts as zero rain: when the records of one
    place and time agree on the rain, writing [0] into every record
    without a rain value does not change what [main] prints; if [main]
    raises, it raises for the same location and expected time, the record
    found being the filled one. *)
Theorem missing_rain_counts_as_zero records :
  consistent records →
  main (fill_rain <$> records) =
    match main records with
    | Ok out => Ok out
    | Raise e => Raise (fill_exn e)
    end.
Proof.
  intros Hcons. unfold main, main_loop.
  rewrite groups_of_fill, run_fill by done.
  by destruct (run init (groups_of records)).
Qed.
End missing_rain.

(** * The loop with the exception of line 186 *)

Section utc_facts.
Context {env : Env} {pf : Platform}.
Implicit Types (st : state) (groups : list (list WeatherRecord)).

Lemma process_group_printed st g st' :
  process_group st g = Ok st' → ∃ l, printed st' = printed st ++ l.
Proof.
  intros (rec & recs & d & -> & _ & ->)%process_group_Ok. cbv zeta. simpl.
  case_bool_decide; [by eexists|]. exists []. by rewrite app_nil_r.
Qed.

Lemma run_printed_prefix st groups st' :
  run st groups = Ok st' → ∃ l, printed st' = printed st ++ l.
Proof.
  revert st. induction groups as [|g groups IH]; intros st.
  - intros [= <-]. exists []. by rewrite app_nil_r.
  - rewrite run_cons. destruct (process_group st g) as [st1|] eqn:E; [|done].
    simpl. intros [l Hl]%IH. apply process_group_printed in E as [l1 Hl1].
    exists (l1 ++ l). by rewrite Hl, Hl1, app_assoc.
Qed.

(** An iteration finishes when the body without the exception of line 186
    does and the line it prints, if any, can be printed. *)
Lemma process_group_utc_Finished st g st' :
  valid_reports (printed st) →
  process_group_utc st g = Finished st' ↔
  process_group st g = Ok st' ∧ valid_reports (printed st').
Proof.
  intros Hv. unfold process_group_utc, process_group.
  destruct g as [|rec recs].
  { split; [done|by intros [? _]]. }
  destruct (update_window (data st) rec) as [d|e]; cbv zeta; simpl bind.
  2: { split; [done|by intros [? _]]. }
  case_bool_decide as Hlevel.
  - destruct (utc_valid (dt (List.last (rec :: recs) rec))) eqn:E.
    + split.
      * intros [= <-]. split; [done|]. cbn [printed].
        apply Forall_app. split; [done|]. by repeat constructor.
      * by intros [[= <-] _].
    + split; [done|]. intros [[= <-] Hv']. cbn [printed] in Hv'.
      apply Forall_app in Hv' as [_ Hv']. rewrite Forall_singleton in Hv'.
      cbn [report_dt] in Hv'. simpl in E. congruence.
  - split; [by intros [= <-]|by intros [[= <-] _]].
Qed.

Lemma run_utc_Finished st groups st' :
  valid_reports (printed st) →
  run_utc st groups = Finished st' ↔
  run st groups = Ok st' ∧ valid_reports (printed st').
Proof.
  revert st. induction groups as [|g groups IH]; intros st Hv.
  - simpl. split; [by intros [= <-]|by intros [[= <-] _]].
  - rewrite run_cons. cbn [run_utc]. split.
    + destruct (process_group_utc st g) as [st1|f] eqn:E; [|done].
      apply process_group_utc_Finished in E as [E Hv1]; [|done].
      rewrite E. simpl. intros Hrun. by apply IH in Hrun.
    + destruct (process_group st g) as [st1|e] eqn:E; simpl; [|by intros [? _]].
      intros [Hrun Hv'].
      assert (valid_reports (printed st1)) as Hv1.
      { destruct (run_printed_prefix _ _ _ Hrun) as [l Hl].
        unfold valid_reports in Hv'. rewrite Hl in Hv'.
        by apply Forall_app in Hv' as [? _]. }
      assert (process_group_utc st g = Finished st1) as ->
        by by apply process_group_utc_Finished.
      by apply IH.
Qed.

Lemma main_loop_utc_Finished records st :
  main_loop_utc records = Finished st ↔
  main_loop records = Ok st ∧ valid_reports (printed st).
Proof. apply run_utc_Finished. constructor. Qed.




Lemma valid_reports_filter (P : SkillReport → Prop) `{∀ r, Decision (P r)} l :
  valid_reports l → valid_reports (filter P l).
Proof.
  intros Hv. apply Forall_forall. intros r [_ Hr]%list_elem_of_filter.
  by apply (proj1 (Forall_forall _ _) Hv).
Qed.


(** X6. The advisories are a function of the input.  The loop runs to the
    end exactly when the input is hourly and [utcfromtimestamp] returns for
    the time of every line of [reports]; then it has printed, in the order
    of the groups, one line for each group whose rules give a level above
    [NONE] on the sum of the last 24 hourly rains of the group's location up
    to and including that group, and every line carries the location and
    the timestamp that all records of its group share. *)
Theorem advisories_closed_form records :
  ((∃ st, main_loop_utc records = Finished st) ↔
   hourly_input records ∧ valid_reports (reports (groups_of records))) ∧
  ∀ st, main_loop_utc records = Finished st →
    printed st = reports (groups_of records) ∧
    ∀ r, r ∈ printed st →
         report_skill r ≠ NONE ∧ utc_valid (report_dt r) = true ∧
         ∃ g, g ∈ groups_of records ∧ g ≠ [] ∧
              Forall (λ x, Location_of x = report_loc r ∧ dt x = report_dt r) g.
Proof.
  split.
  - split.
    + intros [st [Hrun Hv]%main_loop_utc_Finished].
      split; [apply main_accepts_hourly_inputs; by exists st|].
      by rewrite <-(run_printed _ _ Hrun).
    + intros [[st Hrun]%main_accepts_hourly_inputs Hv]. exists st.
      apply main_loop_utc_Finished. split; [done|].
      by rewrite (run_printed _ _ Hrun).
  - intros st [Hrun Hv]%main_loop_utc_Finished.
    pose proof (run_printed _ _ Hrun) as Hprinted. split; [done|].
    intros r Hr.
    pose proof (proj1 (Forall_forall _ _) Hv r Hr) as Hvalid. simpl in Hvalid.
    rewrite Hprinted in Hr. apply reports_lines in Hr as [Hlevel Hg].
    by split_and!.
Qed.

(** X8. What [main] computes for a location depends on the records of that
    location only: when the loop runs to the end on an input, it runs to
    the end on the records of one location alone, leaves the same window
    for the location, flags it as rain-flooded exactly when the full run
    does, and prints the advisory lines that the full run prints for it. *)
Theorem locations_are_independent records lc st :
  main_loop_utc records = Finished st →
  ∃ st',
    main_loop_utc (filter (λ r, Location_of r = lc) records) = Finished st' ∧
    dict_get lc (data st) = dict_get lc (data st') ∧
    (lc ∈ rain_flood st ↔ lc ∈ rain_flood st') ∧
    filter (λ r, report_loc r = lc) (printed st) = printed st'.
Proof.
  intros [Hrun Hv]%main_loop_utc_Finished.
  assert (hourly_input records) as Hin.
  { apply main_accepts_hourly_inputs. by exists st. }
  destruct (run_own_location records lc Hin)
    as (st0 & st' & Hrun0 & Hrun' & Hdata & Hrain & Hprinted).
  rewrite Hrun in Hrun0. injection Hrun0 as <-.
  exists st'. split_and!; [|done..].
  apply main_loop_utc_Finished. split; [done|]. rewrite <-Hprinted.
  by apply valid_reports_filter.
Qed.
End utc_facts.

(** X9. Raising [--rain-threshold] can only shrink the set printed under
    FLOOD BY RAIN: when the loop runs to the end under a threshold, it runs
    to the end under any higher one with the same windows and the same
    advisory lines, and every location that is rain-flooded under the
    higher threshold is rain-flooded under the lower one. *)
Theorem higher_threshold_floods_less (e : Env) (pf : Platform) (t t' : Qc)
        records st :
  (t ≤ t')%Qc →
  main_loop_utc (env := with_threshold e t) records = Finished st →
  ∃ st',
    main_loop_utc (env := with_threshold e t') records = Finished st' ∧
    data st' = data st ∧
    printed st' = printed st ∧
    rain_flood st' ⊆ rain_flood st.
Proof.
  intros Hle [Hrun Hv]%main_loop_utc_Finished.
  assert (hourly_input records) as Hin.
  { apply (main_accepts_hourly_inputs (env := with_threshold e t)).
    by exists st. }
  destruct (threshold_runs e t t' records Hle Hin)
    as (st0 & st' & Hrun0 & Hrun' & Hdata & Hprinted & Hsub).
  rewrite Hrun in Hrun0. injection Hrun0 as <-.
  exists st'. split_and!; [|done..].
  apply main_loop_utc_Finished. split; [done|]. by rewrite Hprinted.
Qed.

(** X10. Widening [--river-margin] can only add lines under FLOOD BY
    RIVER: when the loop runs to the end under a margin, it runs to the end
    under any wider one with the same rain-flooded set and the same
    advisory lines, and a location of the input that is reported for a
    river under the narrower margin is reported for it under the wider
    one. *)
Theorem wider_margin_floods_more (e : Env) (pf : Platform) (m m' : Qc)
        records rec river (line : @LineString e) st :
  (m ≤ m')%Qc →
  main_loop_utc (env := with_margin e m) records = Finished st →
  rec ∈ records →
  NoDup (@RIVERS e).*1 → (river, line) ∈ @RIVERS e →
  ∃ st',
    main_loop_utc (env := with_margin e m') records = Finished st' ∧
    rain_flood st' = rain_flood st ∧
    printed st' = printed st ∧
    ((Location_of rec, river) ∈ river_flood_report (env := with_margin e m) st →
     (Location_of rec, river) ∈ river_flood_report (env := with_margin e m') st').
Proof.
  intros Hle [Hrun Hv]%main_loop_utc_Finished Hrec Hnd Hriv.
  assert (hourly_input records) as Hin.
  { apply (main_accepts_hourly_inputs (env := with_margin e m)).
    by exists st. }
  destruct (margin_runs e m m' records rec river line Hle Hin Hrec Hnd Hriv)
    as (st0 & st' & Hrun0 & Hrun' & Hrain & Hprinted & Hrep).
  rewrite Hrun in Hrun0. injection Hrun0 as <-.
  exists st'. split_and!; [|done..].
  apply main_loop_utc_Finished. split; [done|]. by rewrite Hprinted.
Qed.

(** ** Further runs on the sample inputs *)

Lemma flood_story_hourly : hourly_input flood_story.
Proof.
  apply (main_accepts_hourly_inputs (env := sample_env)).
  eexists. vm_compute. reflexivity.
Qed.

Lemma main_ignores_input_order_witness :
  flood_story ≡ₚ reverse flood_story ∧
  consistent flood_story ∧
  main (env := sample_env) (reverse flood_story)
    = main (env := sample_env) flood_story.
Proof.
  assert (flood_story ≡ₚ reverse flood_story) as Hperm
    by (symmetry; apply reverse_Permutation).
  assert (consistent flood_story) as Hcons by apply flood_story_hourly.
  destruct (main_ignores_input_order (env := sample_env) _ _ Hperm) as [Heq _].
  split_and!; [done..|]. by apply Heq.
Defined.

Lemma anchor_is_most_upstream_flood_witness :
  hourly_input flood_story ∧
  NoDup (RIVERS (Env := sample_env)).*1 ∧
  ∃ st, main_loop (env := sample_env) flood_story = Ok st ∧
        river_flood st !! "Saar" = Some (Fin (q 1000)) ∧
        ∀ lc, lc ∈ rain_flood st → near (env := sample_env) tt lc →
              xle (Fin (q 1000)) (Fin (position (env := sample_env) tt lc)).
Proof.
  assert (NoDup (RIVERS (Env := sample_env)).*1) as Hnd by by_eval.
  assert (("Saar", tt) ∈ RIVERS (Env := sample_env)) as Hin by by_eval.
  destruct (anchor_is_most_upstream_flood (env := sample_env) flood_story
              "Saar" tt flood_story_hourly Hnd Hin) as (st & Hrun & Hle & _).
  split_and!; [apply flood_story_hourly|done|].
  exists st.
  assert (river_flood st !! "Saar" = Some (Fin (q 1000))) as Hanchor.
  { assert (st = final_state (env := sample_env) flood_story) as ->.
    { unfold final_state. by rewrite Hrun. }
    by vm_compute. }
  split_and!; [done..|]. intros lc Hlc Hnear.
  specialize (Hle lc Hlc Hnear). unfold anchor in Hle. by rewrite Hanchor in Hle.
Defined.

Lemma river_flooded_iff_downstream_witness :
  hourly_input flood_story ∧
  ∃ st, main_loop (env := sample_env) flood_story = Ok st ∧
        (Location_of (obs_B 0 None ""), "Saar")
          ∈ river_flood_report (env := sample_env) st ∧
        (Location_of (obs_C 0 None ""), "Saar")
          ∉ river_flood_report (env := sample_env) st.
Proof.
  assert (NoDup (RIVERS (Env := sample_env)).*1) as Hnd by by_eval.
  assert (("Saar", tt) ∈ RIVERS (Env := sample_env)) as Hin by by_eval.
  assert (obs_B 0 (Some (q 20)) "Rain" ∈ flood_story) as HB by by_eval.
  assert (obs_C 0 (Some (q 20)) "Rain" ∈ flood_story) as HC by by_eval.
  destruct (river_flooded_iff_downstream (env := sample_env) flood_story
              _ "Saar" tt flood_story_hourly HB Hnd Hin) as (st & Hrun & HiffB).
  destruct (river_flooded_iff_downstream (env := sample_env) flood_story
              _ "Saar" tt flood_story_hourly HC Hnd Hin) as (st' & Hrun' & HiffC).
  rewrite Hrun in Hrun'. injection Hrun' as <-.
  assert (st = final_state (env := sample_env) flood_story) as Hst.
  { unfold final_state. by rewrite Hrun. }
  split; [apply flood_story_hourly|]. exists st. split_and!; [done| |].
  - apply HiffB. rewrite Hst. unfold near, position.
    split_and!; [by_eval|by_eval|].
    exists (Location_of (obs_A 0 None "")). split_and!; by_eval.
  - intros (_ & _ & lc' & Hlc' & _ & Hpos)%HiffC. rewrite Hst in Hlc'.
    assert (lc' = Location_of (obs_A 0 None "")) as ->.
    { assert (elements (rain_flood (final_state (env := sample_env) flood_story))
              = [Location_of (obs_A 0 None "")]) as Hel by (vm_compute; reflexivity).
      apply elem_of_elements in Hlc'. rewrite Hel in Hlc'.
      by apply list_elem_of_singleton in Hlc'. }
    unfold position in Hpos. apply Qcle_not_lt in Hpos. apply Hpos. by_eval.
Defined.

Lemma window_closed_form_witness :
  contiguous (groups_of (dry_hours 30)) ∧
  ∃ st, run (env := sample_env) init (groups_of (dry_hours 30)) = Ok st ∧
        ∃ d, dict_get (Location_of (obs_A 0 None "")) (data st) = Some d ∧
             dt_from d = -3600 ∧ dt_to d = 3600 * 29 ∧
             length (rain_24h d) = 24%nat.
Proof.
  assert (contiguous (groups_of (dry_hours 30))) as Hc.
  { eapply (run_Ok_contiguous (env := sample_env)). vm_compute. reflexivity. }
  destruct (window_closed_form (env := sample_env) _ Hc) as (st & Hrun & Hwin).
  split; [done|]. exists st. split; [done|].
  exists (mkData (Location_of (obs_A 0 None "")) (-3600) (3600 * 29)
                 (replicate 24 (q 0))).
  rewrite Hwin. split; [vm_compute; reflexivity|]. split_and!; reflexivity.
Defined.

Lemma tracked_locations_witness :
  hourly_input flood_story ∧
  ∃ st, main_loop (env := sample_env) flood_story = Ok st ∧
        NoDup (data st).*1 ∧
        Location_of (obs_D 0 None "") ∈ (data st).*1 ∧
        NoDup (river_flood_report (env := sample_env) st).
Proof.
  assert (NoDup (RIVERS (Env := sample_env)).*1) as Hnd by by_eval.
  destruct (tracked_locations (env := sample_env) flood_story
              flood_story_hourly Hnd) as (st & Hrun & Hkeys & Hiff & _ & Hrep & _).
  split; [apply flood_story_hourly|]. exists st. split_and!; [done..| |done].
  apply Hiff. exists (obs_D 0 (Some (q 20)) "Rain"). split; [by_eval|done].
Defined.

(** The timestamp of [far_future] lies in the year 33658: the loop without
    line 186 runs to the end, the loop with it stops at that line. *)
Example far_future_fails :
  hourly_input far_future ∧
  main_loop_utc (env := sample_env) (pf := sample_platform) far_future =
    Failed (TimeFailure 1000000000000).
Proof.
  split; [|vm_compute; reflexivity].
  apply (main_accepts_hourly_inputs (env := sample_env)).
  eexists. vm_compute. reflexivity.
Qed.

Lemma flood_story_finished :
  main_loop_utc (env := sample_env) (pf := sample_platform) flood_story =
    Finished (finished_state (env := sample_env) (pf := sample_platform)
                flood_story).
Proof. vm_compute. reflexivity. Qed.

Lemma advisories_closed_form_witness :
  ∃ st,
    main_loop_utc (env := sample_env) (pf := sample_platform) flood_story
      = Finished st ∧
    printed st = reports (env := sample_env) (groups_of flood_story) ∧
    length (printed st) = 4%nat.
Proof.
  destruct (advisories_closed_form (env := sample_env) (pf := sample_platform)
              flood_story) as [Hiff Hclosed].
  destruct (proj2 Hiff) as [st Hrun].
  { split; [apply flood_story_hourly|]. unfold valid_reports. by_eval. }
  destruct (Hclosed st Hrun) as [Hprinted _].
  exists st. split_and!; [exact Hrun|exact Hprinted|].
  rewrite Hprinted. vm_compute. reflexivity.
Defined.

Lemma locations_are_independent_witness :
  ∃ st st',
    main_loop_utc (env := sample_env) (pf := sample_platform) flood_story
      = Finished st ∧
    main_loop_utc (env := sample_env) (pf := sample_platform)
      (filter (λ r, Location_of r = Location_of (obs_A 0 None "")) flood_story)
      = Finished st' ∧
    dict_get (Location_of (obs_A 0 None "")) (data st) =
      dict_get (Location_of (obs_A 0 None "")) (data st') ∧
    (Location_of (obs_A 0 None "") ∈ rain_flood st ↔
     Location_of (obs_A 0 None "") ∈ rain_flood st').
Proof.
  destruct (locations_are_independent (env := sample_env)
              (pf := sample_platform) flood_story
              (Location_of (obs_A 0 None "")) _ flood_story_finished)
    as (st' & Hrun' & Hdata & Hrain & _).
  exists (finished_state (env := sample_env) (pf := sample_platform)
            flood_story), st'.
  split_and!; [exact flood_story_finished|exact Hrun'|exact Hdata|exact Hrain].
Defined.

Lemma higher_threshold_floods_less_witness :
  (q 50 ≤ q 100)%Qc ∧
  ∃ st st',
    main_loop_utc (env := with_threshold sample_env (q 50))
      (pf := sample_platform) flood_story = Finished st ∧
    main_loop_utc (env := with_threshold sample_env (q 100))
      (pf := sample_platform) flood_story = Finished st' ∧
    rain_flood st' ⊆ rain_flood st.
Proof.
  assert (q 50 ≤ q 100)%Qc as Hle by by_eval.
  destruct (higher_threshold_floods_less sample_env sample_platform
              (q 50) (q 100) flood_story _ Hle flood_story_finished)
    as (st' & Hrun' & _ & _ & Hsub).
  split; [exact Hle|].
  exists (finished_state (env := sample_env) (pf := sample_platform)
            flood_story), st'.
  split_and!; [exact flood_story_finished|exact Hrun'|exact Hsub].
Defined.

Lemma wider_margin_floods_more_witness :
  (q 1000 ≤ q 2000)%Qc ∧
  ∃ st st',
    main_loop_utc (env := with_margin sample_env (q 1000))
      (pf := sample_platform) flood_story = Finished st ∧
    main_loop_utc (env := with_margin sample_env (q 2000))
      (pf := sample_platform) flood_story = Finished st' ∧
    rain_flood st' = rain_flood st ∧
    ((Location_of (obs_B 0 None ""), "Saar")
       ∈ river_flood_report (env := with_margin sample_env (q 1000)) st →
     (Location_of (obs_B 0 None ""), "Saar")
       ∈ river_flood_report (env := with_margin sample_env (q 2000)) st').
Proof.
  assert (q 1000 ≤ q 2000)%Qc as Hle by by_eval.
  assert (NoDup (RIVERS (Env := sample_env)).*1) as Hnd by by_eval.
  assert (("Saar", tt) ∈ RIVERS (Env := sample_env)) as Hin by by_eval.
  assert (obs_B 0 (Some (q 20)) "Rain" ∈ flood_story) as HB by by_eval.
  destruct (wider_margin_floods_more sample_env sample_platform
              (q 1000) (q 2000) flood_story _ "Saar" tt _
              Hle flood_story_finished HB Hnd Hin)
    as (st' & Hrun' & Hrain & _ & Hrep).
  split; [exact Hle|].
  exists (finished_state (env := sample_env) (pf := sample_platform)
            flood_story), st'.
  split_and!; [exact flood_story_finished|exact Hrun'|exact Hrain|exact Hrep].
Defined.

Lemma skill_level_is_monotone_witness :
  (∀ x, x ∈ [obs_A 0 (Some (q 15)) "Fog"] → x ∈ rain_pair ++ [obs_A 0 (Some (q 15)) "Fog"]) ∧
  skill_value (group_skill (env := sample_env) [obs_A 0 (Some (q 15)) "Fog"] (q 15)) ≤
    skill_value (group_skill (env := sample_env)
                   (rain_pair ++ [obs_A 0 (Some (q 15)) "Fog"]) (q 15)).
Proof.
  assert (∀ x, x ∈ [obs_A 0 (Some (q 15)) "Fog"] →
               x ∈ rain_pair ++ [obs_A 0 (Some (q 15)) "Fog"]) as Hrecs.
  { intros x Hx. apply elem_of_app. by right. }
  destruct (skill_level_is_monotone sample_env sample_env _ _ (q 15)
              (λ r Hr, Hr) Hrecs) as [Hle _].
  by split.
Defined.

Lemma rules_order_is_irrelevant_witness :
  (∀ r, r ∈ reverse sample_rules ↔ r ∈ RAIN_TO_SKILLS (Env := sample_env)) ∧
  main (env := with_rules sample_env (reverse sample_rules)) flood_story =
    main (env := sample_env) flood_story.
Proof.
  assert (∀ r, r ∈ reverse sample_rules ↔ r ∈ RAIN_TO_SKILLS (Env := sample_env))
    as Hrules by (intros r; apply elem_of_reverse).
  split; [done|]. by apply rules_order_is_irrelevant.
Defined.

Lemma dry_hours_hourly : hourly_input (dry_hours 3).
Proof.
  apply (main_accepts_hourly_inputs (env := sample_env)).
  eexists. vm_compute. reflexivity.
Qed.

Lemma missing_rain_counts_as_zero_witness :
  consistent (dry_hours 3) ∧
  rain_1h <$> (fill_rain <$> dry_hours 3) = [Some (q 0); Some (q 0); Some (q 0)] ∧
  main (env := sample_env) (fill_rain <$> dry_hours 3) =
    match main (env := sample_env) (dry_hours 3) with
    | Ok out => Ok out
    | Raise e => Raise (fill_exn e)
    end.
Proof.
  assert (consistent (dry_hours 3)) as Hcons by apply dry_hours_hourly.
  split_and!; [done|reflexivity|].
  by apply (missing_rain_counts_as_zero (env := sample_env)).
Defined.
